(** * The asynchronous disk writer of the raft library ([src/uv_file.c])

    The file handle [uvFile] wraps a descriptor written through Linux
    kernel AIO.  A create request preallocates the file on a worker
    thread; write requests are submitted either directly with
    [io_submit] (completion signalled through an eventfd polled by the
    libuv loop) or on a worker thread; closing waits for whatever is in
    flight.

    The C code is embedded as functions in a small state-and-abort monad
    over a [world]: the handle, the request objects it points to, the
    part of libuv and of the kernel the handle talks to (thread pool,
    AIO context, poll handle) and the chronological list of system calls
    and callbacks performed.  Results of system calls are arguments of
    the embedded functions.  A violated [assert] stops the program
    (the build without NDEBUG): the computation yields [None]. *)

From Stdlib Require Import ZArith Lia.
From stdpp Require Import base option list gmap strings.

Local Open Scope Z_scope.

(** ** Constants of the platform headers (Linux, x86-64) *)

Definition EINTR : Z := 4.
Definition EIO : Z := 5.
Definition EAGAIN : Z := 11.
Definition ENOMEM : Z := 12.
Definition EOPNOTSUPP : Z := 95.
Definition ECANCELED : Z := 125.

Definition UV_ECANCELED : Z := - ECANCELED.
Definition UV_ENOMEM : Z := - ENOMEM.

Definition O_WRONLY : Z := 1.
Definition O_CREAT : Z := 64.
Definition O_EXCL : Z := 128.
Definition O_DSYNC : Z := 4096.

Definition IOCB_CMD_PWRITEV : Z := 8.
Definition IOCB_FLAG_RESFD : Z := 1.

Definition RWF_HIPRI : Z := 1.
Definition RWF_DSYNC : Z := 2.
Definition RWF_NOWAIT : Z := 8.

(** What the preprocessor sees: which per-request flags the kernel headers
    define, and the path limit of os.h. *)
Record build := Build {
  has_RWF_NOWAIT : bool;
  has_RWF_DSYNC : bool;
  has_RWF_HIPRI : bool;
  OS_MAX_PATH_LEN : nat
}.

(** [uv_translate_sys_error], lines 17-20. *)
Definition uv_translate_sys_error (sys_errno : Z) : Z :=
  if sys_errno <=? 0 then sys_errno else - sys_errno.

(** State codes, line 24. *)
Definition CREATING : Z := 1.
Definition READY : Z := 2.
Definition ERRORED : Z := 3.
Definition CLOSED : Z := 4.

(** ** Data *)

Record uv_buf_t := Buf { base : Z; len : Z }.

(** The KAIO control block of a write request.  [aio_buf] is the caller's
    buffer array and [aio_data] the request the block belongs to. *)
Record iocb := Iocb {
  aio_data : nat;
  aio_rw_flags : Z;
  aio_lio_opcode : Z;
  aio_reqprio : Z;
  aio_fildes : Z;
  aio_buf : list uv_buf_t;
  aio_nbytes : Z;
  aio_offset : Z;
  aio_flags : Z;
  aio_resfd : Z
}.

Record io_event := IoEvent { ev_data : nat; ev_res : Z }.

(** [struct uvFileWrite]; membership in the write queue is kept in the
    file's [write_queue]. *)
Record struct_uvFileWrite := WriteReq {
  w_cb : nat;
  w_status : Z;
  w_iocb : iocb
}.

(** [struct uvFileCreate]. *)
Record struct_uvFileCreate := CreateReq {
  c_cb : option nat;
  c_path : string;
  c_size : Z;
  c_status : Z
}.

(** A libuv handle (the eventfd poller). *)
Inductive uv_handle := HInit | HActive | HClosing | HClosed.

Global Instance uv_handle_eq_dec : EqDecision uv_handle.
Proof. solve_decision. Defined.

Definition uv_is_closing (h : uv_handle) : bool :=
  match h with HClosing | HClosed => true | _ => false end.

(** [struct uvFile].  The intrusive queue is the list of the requests
    linked in it, oldest first. *)
Record uvFile := File {
  state : Z;
  fd : Z;
  direct : bool;
  async : bool;
  event_fd : Z;
  event_poller : uv_handle;
  ctx : Z;
  n_events : Z;
  write_queue : list nat;
  closing : bool;
  close_cb : option nat
}.

(** Work items handed to the libuv thread pool. *)
Inductive job := JCreate | JWrite (r : nat).

Global Instance job_eq_dec : EqDecision job.
Proof. solve_decision. Defined.

(** The directory part that [osDirname] computes from a path. *)
Inductive osDir := Dirname (path : string).

(** System calls, libuv calls and callbacks, as they happen. *)
Inductive effect :=
| SysEventfd
| UvPollInit
| SysOpen (path : string) (flags : Z)
| SysIoSetup (nr : Z)
| SysPosixFallocate (fildes offset size : Z)
| SysFsync (fildes : Z)
| OsSyncDir (d : osDir)
| OsSetDirectIO (fildes : Z)
| SysIoSubmit (c : Z) (cb : iocb)
| SysIoGetevents (c : Z)
| SysIoDestroy (c : Z)
| SysRead (fildes : Z)
| SysClose (fildes : Z)
| SysUnlink (path : string)
| SysFree
| UvQueueWork (j : job)
| UvPollStart
| UvClose
| CreateCb (cb : nat) (status : Z)
| WriteCb (r : nat) (cb : nat) (status : Z)
| CloseCb (cb : nat)
| ReturnInit (rv : Z)
| ReturnCreate (rv : Z)
| ReturnWrite (r : nat) (rv : Z).

(** Where the handle is in its life: before [uvFileInit], between
    [uvFileInit] and [uvFileCreate], after [uvFileCreate]. *)
Inductive phase := Fresh | Inited | Created.

Global Instance phase_eq_dec : EqDecision phase.
Proof. solve_decision. Defined.

Record world := World {
  file : uvFile;
  create_req : option struct_uvFileCreate;
  writes : gmap nat struct_uvFileWrite;
  queued : list job;        (* thread pool: work callback not run yet *)
  ran : list job;           (* thread pool: after-work callback pending *)
  kaio : list nat;          (* kernel: submitted, completion not fetched *)
  trace : list effect;
  stage : phase
}.

(** ** The monad: state passing over [world], [None] on a failed assert *)

Definition M (A : Type) : Type := world -> option (A * world).

Definition ret {A : Type} (a : A) : M A := λ w, Some (a, w).

Definition bind {A B : Type} (m : M A) (k : A -> M B) : M B :=
  λ w, match m w with
       | Some (a, w') => k a w'
       | None => None
       end.

Declare Scope M_scope.
Delimit Scope M_scope with M.
Bind Scope M_scope with M.
Notation "x ← y ; z" := (bind y (λ x : _, z))
  (at level 20, y at level 100, z at level 200, only parsing) : M_scope.
Notation "y ;; z" := (bind y (λ _ : (), z))
  (at level 100, z at level 200, only parsing, right associativity) : M_scope.
Local Open Scope M_scope.

Definition assert (b : bool) : M unit :=
  λ w, if b then Some (tt, w) else None.

Definition get_file : M uvFile := λ w, Some (file w, w).

Definition upd_file (g : uvFile -> uvFile) : M unit :=
  λ w, Some (tt, World (g (file w)) (create_req w) (writes w) (queued w)
                       (ran w) (kaio w) (trace w) (stage w)).

Definition emit (e : effect) : M unit :=
  λ w, Some (tt, World (file w) (create_req w) (writes w) (queued w)
                       (ran w) (kaio w) (trace w ++ [e]) (stage w)).

Definition get_create : M struct_uvFileCreate :=
  λ w, match create_req w with Some c => Some (c, w) | None => None end.

Definition put_create (c : struct_uvFileCreate) : M unit :=
  λ w, Some (tt, World (file w) (Some c) (writes w) (queued w)
                       (ran w) (kaio w) (trace w) (stage w)).

(** Dereferencing a request pointer. *)
Definition get_write (r : nat) : M struct_uvFileWrite :=
  λ w, match writes w !! r with Some q => Some (q, w) | None => None end.

Definition put_write (r : nat) (q : struct_uvFileWrite) : M unit :=
  λ w, Some (tt, World (file w) (create_req w) (<[r := q]> (writes w))
                       (queued w) (ran w) (kaio w) (trace w) (stage w)).

Definition set_stage (p : phase) : M unit :=
  λ w, Some (tt, World (file w) (create_req w) (writes w) (queued w)
                       (ran w) (kaio w) (trace w) p).

(** Field updates of [struct uvFile]. *)
Definition set_state (v : Z) (f : uvFile) : uvFile :=
  File v (fd f) (direct f) (async f) (event_fd f) (event_poller f) (ctx f)
       (n_events f) (write_queue f) (closing f) (close_cb f).
Definition set_fd (v : Z) (f : uvFile) : uvFile :=
  File (state f) v (direct f) (async f) (event_fd f) (event_poller f) (ctx f)
       (n_events f) (write_queue f) (closing f) (close_cb f).
Definition set_direct (v : bool) (f : uvFile) : uvFile :=
  File (state f) (fd f) v (async f) (event_fd f) (event_poller f) (ctx f)
       (n_events f) (write_queue f) (closing f) (close_cb f).
Definition set_async (v : bool) (f : uvFile) : uvFile :=
  File (state f) (fd f) (direct f) v (event_fd f) (event_poller f) (ctx f)
       (n_events f) (write_queue f) (closing f) (close_cb f).
Definition set_event_fd (v : Z) (f : uvFile) : uvFile :=
  File (state f) (fd f) (direct f) (async f) v (event_poller f) (ctx f)
       (n_events f) (write_queue f) (closing f) (close_cb f).
Definition set_event_poller (v : uv_handle) (f : uvFile) : uvFile :=
  File (state f) (fd f) (direct f) (async f) (event_fd f) v (ctx f)
       (n_events f) (write_queue f) (closing f) (close_cb f).
Definition set_ctx (v : Z) (f : uvFile) : uvFile :=
  File (state f) (fd f) (direct f) (async f) (event_fd f) (event_poller f) v
       (n_events f) (write_queue f) (closing f) (close_cb f).
Definition set_n_events (v : Z) (f : uvFile) : uvFile :=
  File (state f) (fd f) (direct f) (async f) (event_fd f) (event_poller f)
       (ctx f) v (write_queue f) (closing f) (close_cb f).
Definition set_write_queue (v : list nat) (f : uvFile) : uvFile :=
  File (state f) (fd f) (direct f) (async f) (event_fd f) (event_poller f)
       (ctx f) (n_events f) v (closing f) (close_cb f).
Definition set_closing (v : bool) (f : uvFile) : uvFile :=
  File (state f) (fd f) (direct f) (async f) (event_fd f) (event_poller f)
       (ctx f) (n_events f) (write_queue f) v (close_cb f).
Definition set_close_cb (v : option nat) (f : uvFile) : uvFile :=
  File (state f) (fd f) (direct f) (async f) (event_fd f) (event_poller f)
       (ctx f) (n_events f) (write_queue f) (closing f) v.

(** Field updates of the request objects. *)
Definition set_w_status (v : Z) (q : struct_uvFileWrite) : struct_uvFileWrite :=
  WriteReq (w_cb q) v (w_iocb q).
Definition set_w_iocb (v : iocb) (q : struct_uvFileWrite) : struct_uvFileWrite :=
  WriteReq (w_cb q) (w_status q) v.
Definition set_c_status (v : Z) (c : struct_uvFileCreate) : struct_uvFileCreate :=
  CreateReq (c_cb c) (c_path c) (c_size c) v.

Definition set_aio_flags (v : Z) (b : iocb) : iocb :=
  Iocb (aio_data b) (aio_rw_flags b) (aio_lio_opcode b) (aio_reqprio b)
       (aio_fildes b) (aio_buf b) (aio_nbytes b) (aio_offset b) v (aio_resfd b).
Definition set_aio_resfd (v : Z) (b : iocb) : iocb :=
  Iocb (aio_data b) (aio_rw_flags b) (aio_lio_opcode b) (aio_reqprio b)
       (aio_fildes b) (aio_buf b) (aio_nbytes b) (aio_offset b) (aio_flags b) v.
Definition set_aio_rw_flags (v : Z) (b : iocb) : iocb :=
  Iocb (aio_data b) v (aio_lio_opcode b) (aio_reqprio b)
       (aio_fildes b) (aio_buf b) (aio_nbytes b) (aio_offset b) (aio_flags b)
       (aio_resfd b).

(** ** libuv and the kernel, as far as the handle sees them *)

Definition pool_add (j : job) : M unit :=
  λ w, Some (tt, World (file w) (create_req w) (writes w) (queued w ++ [j])
                       (ran w) (kaio w) (trace w) (stage w)).

Definition kaio_add (r : nat) : M unit :=
  λ w, Some (tt, World (file w) (create_req w) (writes w) (queued w)
                       (ran w) (kaio w ++ [r]) (trace w) (stage w)).

Definition kaio_del (rs : list nat) : M unit :=
  λ w, Some (tt, World (file w) (create_req w) (writes w) (queued w)
                       (ran w) (filter (λ r, r ∉ rs) (kaio w)) (trace w)
                       (stage w)).

(** [uv_queue_work]: on success the job waits in the thread pool. *)
Definition uv_queue_work (j : job) (rv : Z) : M Z :=
  emit (UvQueueWork j);;
  (if rv =? 0 then pool_add j else ret tt);;
  ret rv.

(** [io_submit] of one control block: unless it fails the kernel holds
    the request until its completion event is fetched. *)
Definition io_submit (c : Z) (b : iocb) (rv : Z) : M Z :=
  emit (SysIoSubmit c b);;
  (if rv =? -1 then ret tt else kaio_add (aio_data b));;
  ret rv.

(** [io_getevents]: the fetched events leave the kernel. *)
Definition io_getevents (c : Z) (evs : list io_event) : M unit :=
  emit (SysIoGetevents c);;
  kaio_del (map ev_data evs).

(** [uv_close] on the poller: its close callback runs in a later loop
    iteration. *)
Definition uv_close : M unit :=
  emit UvClose;;
  upd_file (set_event_poller HClosing).

(** [uv_poll_start] on the poller. *)
Definition uv_poll_start (rv : Z) : M Z :=
  emit UvPollStart;;
  (if rv =? 0 then upd_file (set_event_poller HActive) else ret tt);;
  ret rv.

(** [QUEUE_PUSH] and [QUEUE_REMOVE] of queue.h on the list of linked
    requests. *)
Definition QUEUE_PUSH (r : nat) (q : list nat) : list nat := q ++ [r].
Definition QUEUE_REMOVE (r : nat) (q : list nat) : list nat :=
  filter (λ x, x ≠ r) q.
Definition QUEUE_IS_EMPTY (q : list nat) : bool :=
  match q with [] => true | _ => false end.

(** ** The functions of uv_file.c *)

(** Results of the blocking calls of [createWorkCb]. *)
Record create_work_env := CreateWorkEnv {
  cw_posix_fallocate : Z;
  cw_fsync : Z;
  cw_errno : Z;
  cw_osSyncDir : Z;
  cw_osSetDirectIO : Z
}.

(** [createWorkCb], lines 27-77. *)
Definition createWorkCb (e : create_work_env) : M unit :=
  req ← get_create;
  f ← get_file;
  assert (state f =? CREATING);;
  emit (SysPosixFallocate (fd f) 0 (c_size req));;
  if negb (cw_posix_fallocate e =? 0) then
    put_create (set_c_status (uv_translate_sys_error (cw_posix_fallocate e)) req)
  else
    emit (SysFsync (fd f));;
    if cw_fsync e =? -1 then
      put_create (set_c_status (uv_translate_sys_error (cw_errno e)) req)
    else
      emit (OsSyncDir (Dirname (c_path req)));;
      if negb (cw_osSyncDir e =? 0) then
        put_create (set_c_status (uv_translate_sys_error (cw_osSyncDir e)) req)
      else if direct f then
        emit (OsSetDirectIO (fd f));;
        if negb (cw_osSetDirectIO e =? 0) then
          put_create
            (set_c_status (uv_translate_sys_error (cw_osSetDirectIO e)) req)
        else put_create (set_c_status 0 req)
      else put_create (set_c_status 0 req).

(** Results of the calls of [writeWorkCb]; [ww_io_getevents] is what
    [io_getevents] returns once it is no longer interrupted. *)
Record write_work_env := WriteWorkEnv {
  ww_io_setup : Z;
  ww_ctx : Z;
  ww_io_submit : Z;
  ww_io_getevents : Z;
  ww_errno : Z;
  ww_res : Z
}.

(** [writeWorkCb], lines 82-142. *)
Definition writeWorkCb (r : nat) (e : write_work_env) : M unit :=
  req ← get_write r;
  f ← get_file;
  assert (state f =? READY);;
  let dedicated := 1 <? n_events f in
  let failed := put_write r
                  (set_w_status (uv_translate_sys_error (ww_errno e)) req) in
  (if dedicated then emit (SysIoSetup 1) else ret tt);;
  if dedicated && (ww_io_setup e =? -1) then failed
  else
    let c := if dedicated then ww_ctx e else ctx f in
    rv ← io_submit c (w_iocb req) (ww_io_submit e);
    if rv =? -1 then
      (if dedicated then emit (SysIoDestroy c) else ret tt);;
      failed
    else
      io_getevents c [IoEvent r (ww_res e)];;
      assert (ww_io_getevents e =? 1);;
      (if dedicated then emit (SysIoDestroy c) else ret tt);;
      put_write r (set_w_status (ww_res e) req).

(** [writeFinish], lines 146-150. *)
Definition writeFinish (r : nat) : M unit :=
  req ← get_write r;
  upd_file (λ f, set_write_queue (QUEUE_REMOVE r (write_queue f)) f);;
  emit (WriteCb r (w_cb req) (w_status req)).

(** [pollCloseCb], lines 153-175. *)
Definition pollCloseCb (r_close r_io_destroy : Z) : M unit :=
  f ← get_file;
  assert (closing f);;
  assert (negb (state f =? CLOSED));;
  assert (QUEUE_IS_EMPTY (write_queue f));;
  emit (SysClose (event_fd f));;
  assert (r_close =? 0);;
  (if negb (ctx f =? 0) then
     emit (SysIoDestroy (ctx f));;
     assert (r_io_destroy =? 0)
   else ret tt);;
  emit SysFree;;
  upd_file (set_state CLOSED);;
  match close_cb f with
  | Some cb => emit (CloseCb cb)
  | None => ret tt
  end.

(** [maybeClosed], lines 179-200. *)
Definition maybeClosed : M unit :=
  f ← get_file;
  assert (negb (state f =? CLOSED));;
  if negb (closing f) then ret tt
  else if state f =? CREATING then ret tt
  else if negb (QUEUE_IS_EMPTY (write_queue f)) then ret tt
  else if negb (uv_is_closing (event_poller f)) then uv_close
  else ret tt.

(** [writeAfterWorkCb], lines 204-224; [status] is what libuv passes. *)
Definition writeAfterWorkCb (r : nat) (status : Z) : M unit :=
  assert (status =? 0);;
  req ← get_write r;
  f ← get_file;
  assert (state f =? READY);;
  (if closing f then put_write r (set_w_status UV_ECANCELED req) else ret tt);;
  writeFinish r;;
  maybeClosed.

(** Clearing the eventfd and no-wait flags of a control block, lines
    283-285 and 578-580. *)
Definition clear_nowait (b : iocb) : iocb :=
  set_aio_rw_flags (Z.land (aio_rw_flags b) (Z.lnot RWF_NOWAIT))
    (set_aio_resfd 0
       (set_aio_flags (Z.land (aio_flags b) (Z.lnot IOCB_FLAG_RESFD)) b)).

(** One iteration of the loop of [writePollCb], lines 269-302.  The
    result tells whether the function returned from inside the loop
    (line 295). *)
Definition writePollCb_event (cfg : build) (event : io_event)
    (r_queue_work : Z) : M bool :=
  let r := ev_data event in
  req ← get_write r;
  f ← get_file;
  if closing f then
    put_write r (set_w_status UV_ECANCELED req);;
    writeFinish r;;
    ret false
  else if has_RWF_NOWAIT cfg && (ev_res event =? - EAGAIN) then
    let req' := set_w_iocb (clear_nowait (w_iocb req)) req in
    put_write r req';;
    rv ← uv_queue_work (JWrite r) r_queue_work;
    if negb (rv =? 0) then
      put_write r (set_w_status rv req');;
      writeFinish r;;
      ret false
    else ret true
  else
    put_write r (set_w_status (ev_res event) req);;
    writeFinish r;;
    ret false.

(** The loop itself, lines 268-303. *)
Fixpoint writePollCb_events (cfg : build) (evs : list io_event)
    (r_queue_work : Z) : M bool :=
  match evs with
  | [] => ret false
  | event :: rest =>
      returned ← writePollCb_event cfg event r_queue_work;
      if returned then ret true
      else writePollCb_events cfg rest r_queue_work
  end.

(** What the loop hands to [writePollCb]: the result of reading the
    eventfd, and the events [io_getevents] returns once it is no longer
    interrupted ([rv] is their number). *)
Record poll_env := PollEnv {
  p_status : Z;
  p_readable : bool;
  p_read_ok : bool;
  p_completed : Z;
  p_errno : Z;
  p_events : list io_event;
  p_queue_work : Z
}.

(** [writePollCb], lines 228-308. *)
Definition writePollCb (cfg : build) (e : poll_env) : M unit :=
  f ← get_file;
  assert (0 <=? event_fd f);;
  assert (state f =? READY);;
  assert (p_status e =? 0);;
  assert (p_readable e);;
  emit (SysRead (event_fd f));;
  if negb (p_read_ok e) then
    assert (p_errno e =? EAGAIN)
  else
    io_getevents (ctx f) (p_events e);;
    assert (1 <=? Z.of_nat (length (p_events e)));;
    returned ← writePollCb_events cfg (p_events e) (p_queue_work e);
    if returned then ret tt else maybeClosed.

(** [createAfterWorkCb], lines 313-357. *)
Definition createAfterWorkCb (status : Z) (r_poll_start : Z) : M unit :=
  assert (status =? 0);;
  req ← get_create;
  f ← get_file;
  (if closing f then
     emit (SysUnlink (c_path req));;
     put_create (set_c_status UV_ECANCELED req)
   else if c_status req =? 0 then
     rv ← uv_poll_start r_poll_start;
     if negb (rv =? 0) then
       put_create (set_c_status rv req);;
       emit (SysIoDestroy (ctx f));;
       emit (SysClose (event_fd f));;
       emit (SysClose (fd f));;
       emit (SysUnlink (c_path req))
     else ret tt
   else ret tt);;
  req ← get_create;
  upd_file (set_state (if c_status req =? 0 then READY else ERRORED));;
  match c_cb req with
  | Some cb => emit (CreateCb cb (c_status req))
  | None => ret tt
  end;;
  maybeClosed.

Record init_env := InitEnv {
  i_eventfd : Z;
  i_errno : Z;
  i_poll_init : Z
}.

(** [uvFileInit], lines 359-403. *)
Definition uvFileInit (direct_ async_ : bool) (e : init_env) : M Z :=
  upd_file (set_fd (-1));;
  upd_file (set_direct direct_);;
  upd_file (set_async async_);;
  upd_file (set_event_fd (-1));;
  emit SysEventfd;;
  upd_file (set_event_fd (i_eventfd e));;
  if i_eventfd e <? 0 then
    let rv := uv_translate_sys_error (i_errno e) in
    assert (negb (rv =? 0));;
    ret rv
  else
    emit UvPollInit;;
    if negb (i_poll_init e =? 0) then
      emit (SysClose (i_eventfd e));;
      assert (negb (i_poll_init e =? 0));;
      ret (i_poll_init e)
    else
      upd_file (set_event_poller HInit);;
      upd_file (set_ctx 0);;
      upd_file (set_n_events 0);;
      upd_file (set_write_queue []);;
      upd_file (set_closing false);;
      upd_file (set_close_cb None);;
      ret 0.

Record create_env := CreateEnv {
  ce_open : Z;
  ce_io_setup : Z;
  ce_ctx : Z;
  ce_errno : Z;
  ce_calloc_ok : bool;
  ce_queue_work : Z
}.

(** [uvFileCreate], lines 405-480. *)
Definition uvFileCreate (cfg : build) (path : string) (size : Z)
    (max_n_writes : Z) (cb : option nat) (e : create_env) : M Z :=
  f ← get_file;
  assert (0 <? size);;
  assert (negb (closing f));;
  assert (bool_decide (String.length path ≤ OS_MAX_PATH_LEN cfg)%nat);;
  upd_file (set_state CREATING);;
  let flags0 := Z.lor (Z.lor O_WRONLY O_CREAT) O_EXCL in
  let flags := if has_RWF_DSYNC cfg then flags0 else Z.lor flags0 O_DSYNC in
  upd_file (set_n_events max_n_writes);;
  emit (SysOpen path flags);;
  upd_file (set_fd (ce_open e));;
  let err (rv : Z) : M Z :=
    assert (negb (rv =? 0));;
    upd_file (set_state 0);;
    ret rv in
  let err_after_open (rv : Z) : M Z :=
    emit (SysClose (ce_open e));;
    emit (SysUnlink path);;
    upd_file (set_fd (-1));;
    err rv in
  if ce_open e =? -1 then err (uv_translate_sys_error (ce_errno e))
  else
    emit (SysIoSetup max_n_writes);;
    if ce_io_setup e =? -1 then
      err_after_open (uv_translate_sys_error (ce_errno e))
    else
      upd_file (set_ctx (ce_ctx e));;
      if negb (ce_calloc_ok e) then
        emit (SysIoDestroy (ce_ctx e));;
        upd_file (set_ctx 0);;
        err_after_open UV_ENOMEM
      else
        put_create (CreateReq cb path size 0);;
        rv ← uv_queue_work JCreate (ce_queue_work e);
        if negb (rv =? 0) then err_after_open rv
        else ret 0.

Record write_env := WriteEnv {
  we_io_submit : Z;
  we_errno : Z;
  we_queue_work : Z
}.

(** The control block that [uvFileWrite] fills in, lines 513-542. *)
Definition prepare_iocb (cfg : build) (f : uvFile) (r : nat)
    (bufs : list uv_buf_t) (n : Z) (offset : Z) : iocb :=
  let b0 := Iocb r 0 IOCB_CMD_PWRITEV 0 (fd f) bufs n offset 0 0 in
  let b1 := if has_RWF_HIPRI cfg
            then set_aio_rw_flags (Z.lor (aio_rw_flags b0) RWF_HIPRI) b0
            else b0 in
  let b2 := if has_RWF_DSYNC cfg
            then set_aio_rw_flags (Z.lor (aio_rw_flags b1) RWF_DSYNC) b1
            else b1 in
  if has_RWF_NOWAIT cfg && async f
  then set_aio_rw_flags (Z.lor (aio_rw_flags b2) RWF_NOWAIT)
         (set_aio_resfd (event_fd f)
            (set_aio_flags (Z.lor (aio_flags b2) IOCB_FLAG_RESFD) b2))
  else b2.

(** The status field of a request object is not written by
    [uvFileWrite]: it keeps what the memory holds (0 for an object never
    seen before). *)
Definition old_status (r : nat) : M Z :=
  λ w, Some (match writes w !! r with Some q => w_status q | None => 0 end, w).

(** [uvFileWrite], lines 482-602. *)
Definition uvFileWrite (cfg : build) (r : nat) (bufs : list uv_buf_t)
    (n : Z) (offset : Z) (cb : nat) (e : write_env) : M Z :=
  f ← get_file;
  assert (negb (closing f));;
  assert (state f =? READY);;
  (if n_events f =? 1 then assert (QUEUE_IS_EMPTY (write_queue f))
   else ret tt);;
  assert (0 <=? fd f);;
  assert (0 <=? event_fd f);;
  assert (negb (ctx f =? 0));;
  assert (0 <? n);;
  status0 ← old_status r;
  let b := prepare_iocb cfg f r bufs n offset in
  put_write r (WriteReq cb status0 b);;
  upd_file (λ f, set_write_queue (QUEUE_PUSH r (write_queue f)) f);;
  (if has_RWF_NOWAIT cfg then ret tt else assert (negb (async f)));;
  let err (rv : Z) : M Z :=
    assert (negb (rv =? 0));;
    upd_file (λ f, set_write_queue (QUEUE_REMOVE r (write_queue f)) f);;
    ret rv in
  let threadpool : M Z :=
    rv ← uv_queue_work (JWrite r) (we_queue_work e);
    if negb (rv =? 0) then err rv else ret 0 in
  if has_RWF_NOWAIT cfg && async f then
    rv ← io_submit (ctx f) b (we_io_submit e);
    if negb (rv =? -1) then
      assert (rv =? 1);;
      ret 0
    else if we_errno e =? EOPNOTSUPP then
      assert false;;
      put_write r (WriteReq cb status0 (clear_nowait b));;
      threadpool
    else if we_errno e =? EAGAIN then
      put_write r (WriteReq cb status0 (clear_nowait b));;
      threadpool
    else err (uv_translate_sys_error (we_errno e))
  else threadpool.

(** [uvFileClose], lines 604-618. *)
Definition uvFileClose (cb : option nat) (r_close : Z) : M unit :=
  f ← get_file;
  assert (negb (closing f));;
  upd_file (set_closing true);;
  upd_file (set_close_cb cb);;
  (if negb (fd f =? -1) then
     emit (SysClose (fd f));;
     assert (r_close =? 0)
   else ret tt);;
  maybeClosed.

(** ** The handle in its environment

    One step is a call of the API by the owner of the handle, or a
    callback made by libuv: the thread pool running a work function and
    later, on the loop thread, its after-work function; the poller
    reporting the eventfd readable; the poller's close callback.  User
    callbacks are recorded and do not re-enter the API. *)

Inductive label :=
| CallInit (direct_ async_ : bool) (e : init_env)
| CallCreate (path : string) (size max_n_writes : Z) (cb : option nat)
    (e : create_env)
| CallWrite (r : nat) (bufs : list uv_buf_t) (n offset : Z) (cb : nat)
    (e : write_env)
| CallClose (cb : option nat) (r_close : Z)
| WorkCreate (e : create_work_env)
| AfterCreate (r_poll_start : Z)
| WorkWrite (r : nat) (e : write_work_env)
| AfterWrite (r : nat)
| Poll (e : poll_env)
| PollerClosed (r_close r_io_destroy : Z).

Fixpoint take_job (j : job) (l : list job) : list job :=
  match l with
  | [] => []
  | x :: l' => if decide (x = j) then l' else x :: take_job j l'
  end.

Definition pool_start (j : job) : M unit :=
  λ w, Some (tt, World (file w) (create_req w) (writes w)
                       (take_job j (queued w)) (ran w ++ [j]) (kaio w)
                       (trace w) (stage w)).

Definition pool_finish (j : job) : M unit :=
  λ w, Some (tt, World (file w) (create_req w) (writes w) (queued w)
                       (take_job j (ran w)) (kaio w) (trace w) (stage w)).

(** What the environment may do.  The owner initialises the handle once
    and creates the file once, and does not submit a request object that
    is still linked in the queue; libuv runs the jobs it was given; the
    kernel reports, at most [n_events] at a time, requests it holds, a
    context it sets up for a worker is not the one of the handle, and a
    failed fsync leaves an error number in errno. *)
Definition enabled (w : world) (l : label) : bool :=
  match l with
  | CallInit _ _ _ => bool_decide (stage w = Fresh)
  | CallCreate _ _ _ _ _ => bool_decide (stage w = Inited)
  | CallWrite r _ _ _ _ _ =>
      bool_decide (stage w ≠ Fresh ∧ r ∉ write_queue (file w))
  | CallClose _ _ => bool_decide (stage w ≠ Fresh)
  | WorkCreate e =>
      bool_decide (JCreate ∈ queued w ∧ (cw_fsync e = -1 → cw_errno e ≠ 0))
  | AfterCreate _ => bool_decide (JCreate ∈ ran w)
  | WorkWrite r e =>
      bool_decide (JWrite r ∈ queued w ∧
                   (ww_io_setup e ≠ -1 → ww_ctx e ≠ ctx (file w)))
  | AfterWrite r => bool_decide (JWrite r ∈ ran w)
  | Poll e =>
      bool_decide (event_poller (file w) = HActive ∧
                   (p_read_ok e = true →
                    NoDup (map ev_data (p_events e)) ∧
                    map ev_data (p_events e) ⊆ kaio w ∧
                    Z.of_nat (length (p_events e)) ≤ n_events (file w)))
  | PollerClosed _ _ => bool_decide (event_poller (file w) = HClosing)
  end.

Definition handle (cfg : build) (l : label) : M unit :=
  match l with
  | CallInit d a e =>
      rv ← uvFileInit d a e;
      emit (ReturnInit rv);;
      if rv =? 0 then set_stage Inited else ret tt
  | CallCreate path size max_n_writes cb e =>
      rv ← uvFileCreate cfg path size max_n_writes cb e;
      emit (ReturnCreate rv);;
      if rv =? 0 then set_stage Created else ret tt
  | CallWrite r bufs n offset cb e =>
      rv ← uvFileWrite cfg r bufs n offset cb e;
      emit (ReturnWrite r rv)
  | CallClose cb r_close => uvFileClose cb r_close
  | WorkCreate e => pool_start JCreate;; createWorkCb e
  | AfterCreate r_poll_start =>
      pool_finish JCreate;; createAfterWorkCb 0 r_poll_start
  | WorkWrite r e => pool_start (JWrite r);; writeWorkCb r e
  | AfterWrite r => pool_finish (JWrite r);; writeAfterWorkCb r 0
  | Poll e => writePollCb cfg e
  | PollerClosed r_close r_io_destroy =>
      upd_file (set_event_poller HClosed);;
      pollCloseCb r_close r_io_destroy
  end.

Definition step (cfg : build) (w : world) (l : label) : option world :=
  if enabled w l then snd <$> handle cfg l w else None.

Fixpoint run (cfg : build) (w : world) (ls : list label) : option world :=
  match ls with
  | [] => Some w
  | l :: ls' =>
      match step cfg w l with
      | Some w' => run cfg w' ls'
      | None => None
      end
  end.

(** The memory of a handle before [uvFileInit], nothing else going on. *)
Definition boot (f0 : uvFile) : world :=
  World f0 None ∅ [] [] [] [] Fresh.

Definition reachable (cfg : build) (w : world) : Prop :=
  ∃ f0 ls, run cfg (boot f0) ls = Some w.

(** Requests whose callback fired, and requests accepted by
    [uvFileWrite], in the order of the trace. *)
Definition completions (t : list effect) : list nat :=
  omap (λ e, match e with WriteCb r _ _ => Some r | _ => None end) t.

Definition submissions (t : list effect) : list nat :=
  omap (λ e, match e with
             | ReturnWrite r rv => if rv =? 0 then Some r else None
             | _ => None
             end) t.

(** ** Sample runs *)

Definition linux : build := Build true true true 1024.
Definition old_linux : build := Build false false false 1024.

Definition blank : uvFile :=
  File 0 0 false false 0 HInit 0 0 [] false None.

Definition init_ok : init_env := InitEnv 7 0 0.
Definition create_ok : create_env := CreateEnv 8 0 77 0 true 0.
Definition create_work_ok : create_work_env := CreateWorkEnv 0 0 0 0 0.
Definition submit_ok : write_env := WriteEnv 1 0 0.
Definition work_ok (res : Z) : write_work_env := WriteWorkEnv 0 99 1 1 0 res.
Definition wake (evs : list io_event) : poll_env :=
  PollEnv 0 true true 1 0 evs 0.

(** A handle with a created file, ready for writes. *)
Definition opened (direct_ async_ : bool) (max_n_writes : Z) : list label :=
  [ CallInit direct_ async_ init_ok;
    CallCreate "open-1" 4096 max_n_writes (Some 0%nat) create_ok;
    WorkCreate create_work_ok;
    AfterCreate 0 ].

(** ** Structural invariant of the reachable worlds *)

Record inv (w : world) : Prop := Inv {
  inv_queued_nodup : NoDup (queued w);
  inv_ran_nodup : NoDup (ran w);
  inv_pool_disj : ∀ j, j ∈ queued w → j ∉ ran w;
  inv_queue_nodup : stage w ≠ Fresh → NoDup (write_queue (file w));
  inv_kaio : ∀ r, r ∈ kaio w →
    stage w = Created ∧ r ∈ write_queue (file w) ∧
    (JWrite r ∉ queued w) ∧ (JWrite r ∉ ran w);
  inv_queued : ∀ r, JWrite r ∈ queued w →
    stage w = Created ∧ r ∈ write_queue (file w);
  inv_ran : ∀ r, JWrite r ∈ ran w →
    stage w = Created ∧ r ∈ write_queue (file w);
  inv_create_queued : JCreate ∈ queued w →
    stage w = Created ∧ state (file w) = CREATING;
  inv_create_ran : JCreate ∈ ran w →
    stage w = Created ∧ state (file w) = CREATING;
  inv_closing : stage w ≠ Fresh →
    uv_is_closing (event_poller (file w)) = true →
    closing (file w) = true ∧ state (file w) ≠ CREATING;
  inv_inited : stage w = Inited →
    fd (file w) = -1 ∧ write_queue (file w) = [];
  inv_heap : ∀ r q, writes w !! r = Some q → aio_data (w_iocb q) = r
}.

Lemma elem_of_take_job (x j : job) (l : list job) :
  x ∈ take_job j l → x ∈ l.
Proof.
  induction l as [|y l IH]; simpl; [done|].
  destruct (decide (y = j)); rewrite !elem_of_cons; [tauto|].
  intros [Hx|Hx]; [by left|right; by apply IH].
Qed.

Lemma elem_of_take_job_ne (x j : job) (l : list job) :
  x ≠ j → x ∈ l → x ∈ take_job j l.
Proof.
  intros Hne. induction l as [|y l IH]; simpl; [done|].
  destruct (decide (y = j)) as [->|]; rewrite !elem_of_cons.
  - intros [Hx|Hx]; [done|done].
  - intros [Hx|Hx]; [by left|right; by apply IH].
Qed.

Lemma NoDup_take_job (j : job) (l : list job) :
  NoDup l → NoDup (take_job j l).
Proof.
  induction 1 as [|y l Hy Hl IH]; simpl; [constructor|].
  destruct (decide (y = j)); [done|].
  constructor; [|done]. intros Hin%elem_of_take_job. done.
Qed.

Lemma not_elem_of_take_job (j : job) (l : list job) :
  NoDup l → j ∉ take_job j l.
Proof.
  induction 1 as [|y l Hy Hl IH]; simpl; [apply not_elem_of_nil|].
  destruct (decide (y = j)) as [->|]; [done|].
  apply not_elem_of_cons. done.
Qed.

Lemma elem_of_take_job_inv (x j : job) (l : list job) :
  NoDup l → x ∈ take_job j l → x ∈ l ∧ x ≠ j.
Proof.
  intros Hl Hx. split; [by eapply elem_of_take_job|].
  intros ->. by eapply not_elem_of_take_job.
Qed.

Lemma aio_data_prepare_iocb cfg f r bufs n off :
  aio_data (prepare_iocb cfg f r bufs n off) = r.
Proof. unfold prepare_iocb. by repeat case_match. Qed.


Lemma lookup_insert_cases (m : gmap nat struct_uvFileWrite) k v k' x :
  <[k:=v]> m !! k' = Some x →
  (k' = k ∧ x = v) ∨ (k' ≠ k ∧ m !! k' = Some x).
Proof.
  destruct (decide (k = k')) as [->|Hne].
  - rewrite lookup_insert_eq. intros [= <-]. by left.
  - rewrite lookup_insert_ne by done. intros ?. right. by split.
Qed.

Global Arguments prepare_iocb : simpl never.
Global Arguments clear_nowait : simpl never.

(** *** Symbolic execution of the monad *)

Lemma bind_Some {A B} (m : M A) (k : A → M B) w b w' :
  bind m k w = Some (b, w') →
  ∃ a w1, m w = Some (a, w1) ∧ k a w1 = Some (b, w').
Proof.
  unfold bind. destruct (m w) as [[a w1]|]; [|done]. eauto.
Qed.

Lemma assert_Some (c : bool) w u w' :
  assert c w = Some (u, w') → c = true ∧ w' = w.
Proof. unfold assert. destruct c; [|done]. by intros [= <- <-]. Qed.

Lemma ret_Some {A} (a : A) w b w' :
  ret a w = Some (b, w') → b = a ∧ w' = w.
Proof. by intros [= <- <-]. Qed.

Lemma get_file_Some w f w' :
  get_file w = Some (f, w') → f = file w ∧ w' = w.
Proof. by intros [= <- <-]. Qed.

Lemma get_create_Some w c w' :
  get_create w = Some (c, w') → create_req w = Some c ∧ w' = w.
Proof.
  unfold get_create. destruct (create_req w); [|done]. by intros [= <- <-].
Qed.

Lemma get_write_Some r w q w' :
  get_write r w = Some (q, w') → writes w !! r = Some q ∧ w' = w.
Proof.
  unfold get_write. destruct (writes w !! r); [|done]. by intros [= <- <-].
Qed.

Lemma prim_Some {A} (a : A) (w1 : world) b w' :
  Some (a, w1) = Some (b, w') → b = a ∧ w' = w1.
Proof. by intros [= <- <-]. Qed.

Ltac prim H :=
  let Hb := fresh in
  apply prim_Some in H; destruct H as [Hb ->];
  first [ match type of Hb with ?x = _ => is_var x; subst x end
        | discriminate Hb
        | clear Hb ].

Ltac mstep :=
  match goal with
  | H : bind _ _ _ = Some _ |- _ =>
      apply bind_Some in H; destruct H as (? & ? & ? & H)
  | H : ret _ _ = Some _ |- _ =>
      let Hb := fresh in
      apply ret_Some in H; destruct H as [Hb ->];
      first [ match type of Hb with ?x = _ => is_var x; subst x end
            | discriminate Hb
            | clear Hb ]
  | H : assert _ _ = Some _ |- _ =>
      apply assert_Some in H; destruct H as [? ->]
  | H : get_file _ = Some _ |- _ =>
      apply get_file_Some in H; destruct H as [-> ->]
  | H : get_create _ = Some _ |- _ =>
      apply get_create_Some in H; destruct H as [? ->]
  | H : get_write _ _ = Some _ |- _ =>
      apply get_write_Some in H; destruct H as [? ->]
  | H : emit _ _ = Some _ |- _ => prim H
  | H : upd_file _ _ = Some _ |- _ => prim H
  | H : put_create _ _ = Some _ |- _ => prim H
  | H : put_write _ _ _ = Some _ |- _ => prim H
  | H : old_status _ _ = Some _ |- _ => prim H
  | H : set_stage _ _ = Some _ |- _ => prim H
  | H : pool_start _ _ = Some _ |- _ => prim H
  | H : pool_finish _ _ = Some _ |- _ => prim H
  | H : pool_add _ _ = Some _ |- _ => prim H
  | H : kaio_add _ _ = Some _ |- _ => prim H
  | H : kaio_del _ _ = Some _ |- _ => prim H
  | H : uv_queue_work _ _ _ = Some _ |- _ => unfold uv_queue_work in H
  | H : io_submit _ _ _ _ = Some _ |- _ => unfold io_submit in H
  | H : io_getevents _ _ _ = Some _ |- _ => unfold io_getevents in H
  | H : uv_close _ = Some _ |- _ => unfold uv_close in H
  | H : uv_poll_start _ _ = Some _ |- _ => unfold uv_poll_start in H
  | H : writeFinish _ _ = Some _ |- _ => unfold writeFinish in H
  | H : maybeClosed _ = Some _ |- _ => unfold maybeClosed in H
  | H : (if ?c then _ else _) _ = Some _ |- _ => destruct c eqn:?
  | H : match ?c with _ => _ end _ = Some _ |- _ => destruct c eqn:?
  | H : false = true |- _ => discriminate H
  | H : Some _ = Some ?b |- _ => is_var b; injection H as H; subst b
  end;
  cbn [file create_req writes queued ran kaio trace stage] in *.

Ltac mexec := cbv zeta in *; repeat mstep; simpl in *.

(** Unfolding the monad and the functions built on it. *)
Ltac unfold_M :=
  unfold bind, ret, assert, emit, get_file, upd_file, get_create, put_create,
    get_write, put_write, old_status, set_stage, uv_queue_work, io_submit,
    io_getevents, uv_close, uv_poll_start, pool_start, pool_finish,
    pool_add, kaio_add, kaio_del in *.

Ltac unfold_code :=
  unfold handle, uvFileInit, uvFileCreate, uvFileWrite, uvFileClose,
    createWorkCb, createAfterWorkCb, writeWorkCb, writeAfterWorkCb,
    writePollCb, pollCloseCb, writeFinish, maybeClosed,
    writePollCb_event in *.

Lemma QUEUE_IS_EMPTY_true q : QUEUE_IS_EMPTY q = true → q = [].
Proof. by destruct q. Qed.

Lemma QUEUE_IS_EMPTY_false q : QUEUE_IS_EMPTY q = false → q ≠ [].
Proof. by destruct q. Qed.

(** Boolean tests of the code as propositions. *)
Ltac prop_bools :=
  repeat match goal with
  | H : false = true |- _ => discriminate H
  | H : true = false |- _ => discriminate H
  | H : negb _ = true |- _ => apply negb_true_iff in H
  | H : negb _ = false |- _ => apply negb_false_iff in H
  | H : (_ && _) = true |- _ => apply andb_true_iff in H; destruct H
  | H : (true && _) = false |- _ => simpl in H
  | H : (false && _) = false |- _ => clear H
  | H : (_ =? _) = true |- _ => apply Z.eqb_eq in H
  | H : (_ =? _) = false |- _ => apply Z.eqb_neq in H
  | H : (_ <? _) = true |- _ => apply Z.ltb_lt in H
  | H : (_ <? _) = false |- _ => apply Z.ltb_ge in H
  | H : (_ <=? _) = true |- _ => apply Z.leb_le in H
  | H : (_ <=? _) = false |- _ => apply Z.leb_gt in H
  | H : bool_decide _ = true |- _ => apply bool_decide_eq_true in H
  | H : bool_decide _ = false |- _ => apply bool_decide_eq_false in H
  | H : QUEUE_IS_EMPTY _ = true |- _ => apply QUEUE_IS_EMPTY_true in H
  | H : QUEUE_IS_EMPTY _ = false |- _ => apply QUEUE_IS_EMPTY_false in H
  end.

Ltac learn H :=
  let T := type of H in
  lazymatch goal with
  | _ : T |- _ => fail
  | _ => pose proof H
  end.

(** Membership facts in the hypotheses, taken apart. *)
Ltac split_hyps :=
  repeat match goal with
  | H : _ ∈ _ ++ _ |- _ => apply elem_of_app in H; destruct H
  | H : _ ∈ _ :: _ |- _ => apply elem_of_cons in H; destruct H
  | H : _ ∈ [] |- _ => by apply elem_of_nil in H
  | H : _ ∉ _ :: _ |- _ => apply not_elem_of_cons in H; destruct H
  | H : _ ∉ _ ++ _ |- _ => apply not_elem_of_app in H; destruct H
  | H : _ ∈ filter _ _ |- _ => apply list_elem_of_filter in H; destruct H
  | H : _ ∈ QUEUE_REMOVE _ _ |- _ =>
      apply list_elem_of_filter in H; destruct H
  | H : _ ∈ QUEUE_PUSH _ _ |- _ => apply elem_of_app in H; destruct H
  | H : <[_:=_]> _ !! _ = Some _ |- _ =>
      apply lookup_insert_cases in H; destruct H as [[? ?]|[? H]]
  | H : _ ∈ take_job _ ?l, Hn : NoDup ?l |- _ =>
      apply (elem_of_take_job_inv _ _ _ Hn) in H; destruct H
  | H : _ ∈ take_job _ _ |- _ => apply elem_of_take_job in H
  end.

(** Forward chaining with the clauses of the invariant, each membership
    fact used once. *)
Ltac chain :=
  repeat match goal with
  | Hin : ?j ∈ queued ?w |- _ =>
      try match goal with
      | Hd : ∀ j, j ∈ queued w → j ∉ ran w |- _ =>
          let H := fresh in pose proof (Hd _ Hin) as H
      end;
      try match j with
      | JCreate =>
          match goal with
          | Hc : JCreate ∈ queued w → _ |- _ => pose proof (Hc Hin) as [? ?]
          end
      | JWrite ?x =>
          match goal with
          | Hc : ∀ r, JWrite r ∈ queued w → _ |- _ =>
              pose proof (Hc x Hin) as [? ?]
          end
      end;
      revert Hin
  | Hin : ?j ∈ ran ?w |- _ =>
      try match j with
      | JCreate =>
          match goal with
          | Hc : JCreate ∈ ran w → _ |- _ => pose proof (Hc Hin) as [? ?]
          end
      | JWrite ?x =>
          match goal with
          | Hc : ∀ r, JWrite r ∈ ran w → _ |- _ =>
              pose proof (Hc x Hin) as [? ?]
          end
      end;
      revert Hin
  | Hin : ?x ∈ kaio ?w |- _ =>
      try match goal with
      | Hk : ∀ r, r ∈ kaio w → _ |- _ =>
          pose proof (Hk x Hin) as (? & ? & ? & ?)
      end;
      revert Hin
  | Hin : writes ?w !! ?x = Some ?q |- _ =>
      try match goal with
      | Hh : ∀ r q, writes w !! r = Some q → _ |- _ =>
          let H := fresh in pose proof (Hh x q Hin) as H; simpl in H
      end;
      revert Hin
  end; intros.

Ltac split_goal :=
  repeat match goal with
  | |- _ ∧ _ => split
  | |- NoDup (_ ++ _) => apply NoDup_app
  | |- NoDup (_ :: _) => apply NoDup_cons
  | |- NoDup [] => constructor
  | |- NoDup (QUEUE_PUSH _ _) => apply NoDup_app
  | |- NoDup (QUEUE_REMOVE _ _) => apply NoDup_filter
  | |- NoDup (filter _ _) => apply NoDup_filter
  | |- NoDup (take_job _ _) => apply NoDup_take_job
  | |- _ ∉ _ ++ _ => apply not_elem_of_app
  | |- _ ∉ _ :: _ => apply not_elem_of_cons
  | |- _ ∉ [] => apply not_elem_of_nil
  | |- _ ∈ filter _ _ => apply list_elem_of_filter
  | |- _ ∈ QUEUE_REMOVE _ _ => apply list_elem_of_filter
  | |- ∀ _, _ => intro
  | |- _ → _ => intro
  | |- ¬ _ => intro
  end.

Ltac close :=
  unfold QUEUE_PUSH in *; simpl;
  rewrite ?aio_data_prepare_iocb;
  try match goal with
  | H : uv_is_closing ?p = true, Hc : uv_is_closing ?p = true → _ |- _ =>
      destruct (Hc H)
  end;
  try done; try congruence; try lia; try (by constructor);
  try (exfalso; congruence);
  try (apply elem_of_app; left; done);
  try (apply elem_of_app; right; done);
  try (apply elem_of_app; right; apply list_elem_of_singleton; congruence);
  try (apply elem_of_take_job_ne; [congruence | done]).

Ltac light_eq :=
  try match goal with
  | H : write_queue ?f = [] |- _ => rewrite H in *
  end;
  repeat match goal with
  | H : _ ∧ _ |- _ => destruct H
  | H : JWrite _ = JWrite _ |- _ => injection H as H
  | H : JWrite _ = JCreate |- _ => discriminate H
  | H : JCreate = JWrite _ |- _ => discriminate H
  | H : ?x = ?x |- _ => clear H
  | H : ?x = _ |- _ => is_var x; subst x
  | H : _ = ?x |- _ => is_var x; subst x
  | H : ?x ≠ ?x |- _ => by destruct H
  | H : False |- _ => destruct H
  end.

(** What the stage of the handle tells. *)
Ltac use_stage :=
  try match goal with
  | Hen : stage ?w ≠ Fresh ∧ _ |- _ => destruct Hen
  end;
  try match goal with
  | Hst : stage ?w = Inited |- _ =>
      assert (stage w ≠ Fresh) by (rewrite Hst; discriminate)
  | Hst : stage ?w = Created |- _ =>
      assert (stage w ≠ Fresh) by (rewrite Hst; discriminate)
  end;
  try match goal with
  | Hst : stage ?w ≠ Fresh, H : stage ?w ≠ Fresh → NoDup _ |- _ =>
      specialize (H Hst)
  end;
  try match goal with
  | Hst : stage ?w ≠ Fresh,
    H : stage ?w ≠ Fresh → uv_is_closing _ = true → _ |- _ =>
      specialize (H Hst)
  end;
  try match goal with
  | Hst : stage ?w = Inited, H : stage ?w = Inited → _ |- _ =>
      destruct (H Hst); clear H
  end;
  try match goal with
  | Hp : event_poller ?f = _,
    Hc : uv_is_closing (event_poller ?f) = true → _ |- _ =>
      rewrite Hp in Hc; simpl in Hc; try specialize (Hc eq_refl)
  end.


Ltac finish :=
  first
    [ assumption
    | split_goal; split_hyps; light_eq; chain; use_stage; light_eq; close ].

Ltac destruct_inv H :=
  destruct H as
    [Hqn Hrn Hdisj Hwq Hkaio Hjq Hjr Hcq Hcr Hclosing Hinited Hheap].

(** From [step] to the run of the handler. *)
Lemma step_Some cfg w l w' :
  step cfg w l = Some w' →
  enabled w l = true ∧ handle cfg l w = Some (tt, w').
Proof.
  unfold step. destruct (enabled w l); [|done].
  destruct (handle cfg l w) as [[[] w1]|]; [|done].
  by intros [= <-].
Qed.

Ltac step_exec H :=
  apply step_Some in H; destruct H as [Hen H];
  unfold enabled in Hen; apply bool_decide_eq_true in Hen;
  try match type of Hen with
      | JWrite _ ∈ _ ∧ _ => let H' := fresh "Hctx" in destruct Hen as [Hen H']
      | JCreate ∈ _ ∧ _ => let H' := fresh "Herrno" in destruct Hen as [Hen H']
      end;
  unfold handle in H.

Ltac inv_case Hi Hs :=
  step_exec Hs; unfold_code; revert Hi; mexec; prop_bools;
  intros Hi; destruct_inv Hi; chain; use_stage;
  rewrite ?aio_data_prepare_iocb;
  (split; simpl); finish.

Lemma step_inv_init cfg w w' d a e :
  inv w → step cfg w (CallInit d a e) = Some w' → inv w'.
Proof. intros Hi Hs. inv_case Hi Hs. Qed.

Lemma step_inv_create cfg w w' p sz m cb e :
  inv w → step cfg w (CallCreate p sz m cb e) = Some w' → inv w'.
Proof. intros Hi Hs. inv_case Hi Hs. Qed.

Lemma step_inv_write cfg w w' r bufs n off cb e :
  inv w → step cfg w (CallWrite r bufs n off cb e) = Some w' → inv w'.
Proof.
  intros Hi Hs. step_exec Hs. unfold uvFileWrite in Hs. revert Hi.
  mexec.
  all: prop_bools.
  all: intros Hi; destruct_inv Hi; use_stage.
  all: rewrite ?aio_data_prepare_iocb.
  all: assert (stage w = Created) by
    (destruct (stage w); [done| destruct Hinited; [done|lia] |done]).
  all: split; simpl.
  all: finish.
Qed.

Lemma step_inv_close cfg w w' cb rc :
  inv w → step cfg w (CallClose cb rc) = Some w' → inv w'.
Proof. intros Hi Hs. inv_case Hi Hs. Qed.

Lemma step_inv_work_create cfg w w' e :
  inv w → step cfg w (WorkCreate e) = Some w' → inv w'.
Proof. intros Hi Hs. inv_case Hi Hs. Qed.

Lemma step_inv_after_create cfg w w' ps :
  inv w → step cfg w (AfterCreate ps) = Some w' → inv w'.
Proof. intros Hi Hs. inv_case Hi Hs. Qed.

Lemma step_inv_work_write cfg w w' r e :
  inv w → step cfg w (WorkWrite r e) = Some w' → inv w'.
Proof. intros Hi Hs. inv_case Hi Hs. Qed.

Lemma step_inv_after_write cfg w w' r :
  inv w → step cfg w (AfterWrite r) = Some w' → inv w'.
Proof. intros Hi Hs. inv_case Hi Hs. Qed.

Lemma step_inv_poller_closed cfg w w' rc rd :
  inv w → step cfg w (PollerClosed rc rd) = Some w' → inv w'.
Proof. intros Hi Hs. inv_case Hi Hs. Qed.

(** The loop of [writePollCb]: the requests still to be looked at are
    linked in the queue, belong to no job and have left the kernel. *)
Definition linv (ids : list nat) (w : world) : Prop :=
  inv w ∧ NoDup ids ∧
  ∀ r, r ∈ ids →
    stage w = Created ∧ r ∈ write_queue (file w) ∧
    (JWrite r ∉ queued w) ∧ (JWrite r ∉ ran w) ∧ (r ∉ kaio w).

Lemma writePollCb_event_linv cfg ev ids qw w b w' :
  linv (ev_data ev :: ids) w →
  writePollCb_event cfg ev qw w = Some (b, w') →
  linv ids w'.
Proof.
  intros (Hi & [Hnotin Hnd]%NoDup_cons & Hl) Hs.
  pose proof (Hl _ (list_elem_of_here _ _)) as (Hst & Hq & Hnq & Hnr & Hnk).
  assert (Htl : ∀ r, r ∈ ids →
    r ≠ ev_data ev ∧ r ∈ write_queue (file w) ∧
    (JWrite r ∉ queued w) ∧ (JWrite r ∉ ran w) ∧ (r ∉ kaio w)).
  { intros r Hr. split; [by intros ->|].
    by apply (Hl r (list_elem_of_further _ _ _ Hr)). }
  clear Hl. unfold writePollCb_event in Hs. revert Hi Htl.
  mexec; prop_bools; intros Hi Htl; destruct_inv Hi; use_stage.
  all: split; [split; simpl|split; [done|]].
  all: try (intros r0 Hr0; destruct (Htl r0 Hr0) as (? & ? & ? & ? & ?);
            clear Htl; simpl).
  all: finish.
Qed.

Lemma writePollCb_events_inv cfg evs qw w b w' :
  linv (map ev_data evs) w →
  writePollCb_events cfg evs qw w = Some (b, w') →
  inv w'.
Proof.
  revert w. induction evs as [|ev evs IH]; simpl; intros w Hl Hs.
  - mexec. by destruct Hl.
  - apply bind_Some in Hs as (returned & w1 & Hev & Hs).
    apply writePollCb_event_linv with (ids := map ev_data evs) in Hev;
      [|done].
    destruct returned.
    + mexec. by destruct Hev.
    + by eapply IH.
Qed.

Lemma step_inv_poll cfg w w' e :
  inv w → step cfg w (Poll e) = Some w' → inv w'.
Proof.
  intros Hi Hs. step_exec Hs. unfold writePollCb in Hs.
  destruct Hen as [Hactive Hen]. revert Hi.
  mexec; prop_bools; intros Hi.
  1: by (destruct_inv Hi; split; simpl; finish).
  all: match goal with
       | Hr : p_read_ok _ = true |- _ =>
           destruct (Hen Hr) as (Hnd & Hsub & Hlen); clear Hen
       end.
  all: match goal with
       | H : writePollCb_events _ _ _ _ = Some _ |- _ =>
           apply writePollCb_events_inv in H;
           [ clear Hi; rename H into Hi
           | destruct_inv Hi; split; [split; simpl|split; [done|simpl]];
             try (intros r Hr; pose proof (Hsub r Hr)); finish ]
       end.
  all: try assumption.
  all: destruct_inv Hi; use_stage; split; simpl; finish.
Qed.

(** Every step keeps the invariant. *)
Lemma step_inv cfg w l w' : inv w → step cfg w l = Some w' → inv w'.
Proof.
  destruct l.
  - apply step_inv_init.
  - apply step_inv_create.
  - apply step_inv_write.
  - apply step_inv_close.
  - apply step_inv_work_create.
  - apply step_inv_after_create.
  - apply step_inv_work_write.
  - apply step_inv_after_write.
  - apply step_inv_poll.
  - apply step_inv_poller_closed.
Qed.

Lemma run_inv cfg ls w w' : inv w → run cfg w ls = Some w' → inv w'.
Proof.
  revert w. induction ls as [|l ls IH]; simpl; intros w Hi Hr.
  - by injection Hr as <-.
  - destruct (step cfg w l) as [w1|] eqn:Hs; [|done].
    eapply IH; [|done]. by eapply step_inv.
Qed.

Lemma boot_inv f0 : inv (boot f0).
Proof.
  split; simpl; try done; try (by constructor); intros;
    try (by split_hyps).
Qed.

Lemma reachable_inv cfg w : reachable cfg w → inv w.
Proof. intros (f0 & ls & Hr). eapply run_inv; [apply boot_inv|done]. Qed.

(** ** After close has been requested *)

(** How often the callback of request [r] fired in a piece of trace. *)
Definition callbacks (r : nat) (t : list effect) : nat :=
  length (filter (λ x, x = r) (completions t)).

(** Whether request [r] is linked in a queue, as a number. *)
Definition linked (r : nat) (q : list nat) : nat :=
  if decide (r ∈ q) then 1%nat else 0%nat.

(** Giving up the eventfd or the AIO context of the handle, or telling
    the owner that the handle is closed. *)
Definition releases (f : uvFile) (e : effect) : Prop :=
  e = SysClose (event_fd f) ∨ e = SysIoDestroy (ctx f) ∨ ∃ cb, e = CloseCb cb.

(** Nothing of the handle is in flight. *)
Definition quiescent (w : world) : Prop :=
  write_queue (file w) = [] ∧ state (file w) ≠ CREATING ∧
  queued w = [] ∧ ran w = [] ∧ kaio w = [].

Lemma completions_app t1 t2 :
  completions (t1 ++ t2) = completions t1 ++ completions t2.
Proof. unfold completions. apply omap_app. Qed.

Lemma submissions_app t1 t2 :
  submissions (t1 ++ t2) = submissions t1 ++ submissions t2.
Proof. unfold submissions. apply omap_app. Qed.

Lemma callbacks_app r t1 t2 :
  callbacks r (t1 ++ t2) = (callbacks r t1 + callbacks r t2)%nat.
Proof.
  unfold callbacks. by rewrite completions_app, filter_app, length_app.
Qed.

Lemma inv_quiescent w :
  inv w → stage w ≠ Fresh →
  write_queue (file w) = [] →
  uv_is_closing (event_poller (file w)) = true →
  quiescent w.
Proof.
  intros Hi Hst Hq Hp. destruct_inv Hi.
  destruct (Hclosing Hst Hp) as [_ Hcr']. rewrite Hq in *.
  assert (Hno : ∀ j, (j ∈ queued w → False) ∧ (j ∈ ran w → False)).
  { intros [|r]; split; intros Hin.
    - by destruct (Hcq Hin).
    - by destruct (Hcr Hin).
    - destruct (Hjq r Hin) as [_ ?%elem_of_nil]. done.
    - destruct (Hjr r Hin) as [_ ?%elem_of_nil]. done. }
  repeat split; [done|done| | |].
  - destruct (queued w) as [|j ?]; [done|].
    destruct (proj1 (Hno j)). apply list_elem_of_here.
  - destruct (ran w) as [|j ?]; [done|].
    destruct (proj2 (Hno j)). apply list_elem_of_here.
  - destruct (kaio w) as [|r ?]; [done|].
    destruct (Hkaio r) as (_ & ?%elem_of_nil & _); [apply list_elem_of_here|done].
Qed.

Lemma linked_remove r r1 q :
  r1 ∈ q →
  ((if decide (r1 = r) then 1 else 0) + linked r (QUEUE_REMOVE r1 q))%nat
  = linked r q.
Proof.
  intros Hin. unfold linked, QUEUE_REMOVE.
  destruct (decide (r1 = r)) as [->|Hne].
  - rewrite decide_False, decide_True; [done|done|].
    rewrite list_elem_of_filter. tauto.
  - destruct (decide (r ∈ q)) as [Hr|Hr].
    + rewrite decide_True; [done|]. apply list_elem_of_filter. split; [congruence|done].
    + rewrite decide_False; [done|]. rewrite list_elem_of_filter. tauto.
Qed.

(** What one step does once close has been requested. *)
Definition closing_post (w w' : world) : Prop :=
  closing (file w') = true ∧ stage w' ≠ Fresh ∧
  ∃ new, trace w' = trace w ++ new ∧
    (∀ r cb st, WriteCb r cb st ∈ new → st = UV_ECANCELED) ∧
    (∀ r, (callbacks r new + linked r (write_queue (file w')))%nat
          = linked r (write_queue (file w))) ∧
    (∀ e, e ∈ new → releases (file w) e → quiescent w).

Ltac trace_new :=
  rewrite <- ?app_assoc; simpl;
  first [ eexists; split; [reflexivity|]
        | exists []; split; [by rewrite app_nil_r|] ].

Lemma callbacks_nil r : callbacks r [] = 0%nat.
Proof. done. Qed.

Lemma callbacks_cons r e t :
  callbacks r (e :: t) =
  (match e with
   | WriteCb r1 _ _ => if decide (r1 = r) then 1 else 0
   | _ => 0
   end + callbacks r t)%nat.
Proof.
  unfold callbacks, completions. destruct e; simpl; try done.
  rewrite filter_cons. by destruct (decide (r0 = r)).
Qed.

Ltac closing_finish Hi :=
  destruct_inv Hi; chain; split_hyps; light_eq; simpl in *;
  split; [|split];
  [ intros ? ? ? ?; split_hyps; simplify_eq/=; done
  | intros ?; rewrite ?callbacks_cons, ?callbacks_nil; simpl;
    try done; rewrite Nat.add_0_r;
    first [ by apply linked_remove | done ]
  | intros ? ? [?|[?|[? ?]]]; split_hyps; simplify_eq/=;
    try match goal with
        | Hctx : _ → ww_ctx _ ≠ _ |- _ => by destruct Hctx
        end ].

Ltac closing_case Hi Hs :=
  step_exec Hs; unfold_code; revert Hi;
  mexec; prop_bools; intros Hi; try congruence;
  (split; [done|split; [done|]]); trace_new;
  closing_finish Hi.

Section closing.
Context (cfg : build) (w w' : world).
Hypothesis (Hi : inv w) (Hst : stage w ≠ Fresh).
Hypothesis (Hc : closing (file w) = true).

Lemma closing_step_after_write r :
  step cfg w (AfterWrite r) = Some w' → closing_post w w'.
Proof using Hi Hst Hc. intros Hs. closing_case Hi Hs. Qed.

Lemma closing_step_work_write r e :
  step cfg w (WorkWrite r e) = Some w' → closing_post w w'.
Proof using Hi Hst Hc. intros Hs. closing_case Hi Hs. Qed.

Lemma closing_step_work_create e :
  step cfg w (WorkCreate e) = Some w' → closing_post w w'.
Proof using Hi Hst Hc. intros Hs. closing_case Hi Hs. Qed.

Lemma closing_step_after_create ps :
  step cfg w (AfterCreate ps) = Some w' → closing_post w w'.
Proof using Hi Hst Hc. intros Hs. closing_case Hi Hs. Qed.

Lemma closing_step_poller_closed rc rd :
  step cfg w (PollerClosed rc rd) = Some w' → closing_post w w'.
Proof using Hi Hst Hc.
  intros Hs. pose proof Hi as Hi0. closing_case Hi Hs.
  all: apply inv_quiescent; try done.
  all: by match goal with H : event_poller _ = _ |- _ => rewrite H end.
Qed.

Lemma closing_step_calls l :
  match l with
  | CallInit _ _ _ | CallCreate _ _ _ _ _ | CallWrite _ _ _ _ _ _
  | CallClose _ _ => step cfg w l = None
  | _ => True
  end.
Proof using Hi Hst Hc.
  destruct l; try done.
  all: destruct (step cfg w _) as [w1|] eqn:Hs; [exfalso|done].
  all: step_exec Hs; unfold_code; mexec; prop_bools; congruence.
Qed.
End closing.

(** The loop of [writePollCb] on a closing handle: every fetched request
    is finished as cancelled, in the order of the events. *)
Definition remove_all (ids : list nat) (q : list nat) : list nat :=
  foldl (λ q r, QUEUE_REMOVE r q) q ids.

Lemma closing_events cfg evs qw w b w' :
  closing (file w) = true →
  writePollCb_events cfg evs qw w = Some (b, w') →
  b = false ∧
  file w' = set_write_queue
              (remove_all (map ev_data evs) (write_queue (file w))) (file w) ∧
  queued w' = queued w ∧ ran w' = ran w ∧ kaio w' = kaio w ∧
  stage w' = stage w ∧
  ∃ new, trace w' = trace w ++ new ∧
    completions new = map ev_data evs ∧
    ∀ e, e ∈ new → ∃ r cb, e = WriteCb r cb UV_ECANCELED.
Proof.
  revert w b w'. induction evs as [|ev evs IH]; simpl; intros w b w' Hc Hs.
  - mexec. split; [done|]. split; [by destruct (file w)|].
    do 4 (split; [done|]).
    exists []. rewrite app_nil_r. do 2 (split; [done|]).
    by intros ? ?%elem_of_nil.
  - apply bind_Some in Hs as (returned & w1 & Hev & Hs).
    unfold writePollCb_event in Hev. mexec; prop_bools; try congruence.
    match goal with
    | H : writePollCb_events _ _ _ _ = Some _ |- _ =>
        apply IH in H as
          (-> & Hf & Hq & Hr & Hk & Hst & new & Ht & Hcs & Hnew); [|done]
    end.
    simpl in *. split; [done|]. split; [by rewrite Hf|].
    do 4 (split; [congruence|]).
    match goal with
    | H : trace _ = (_ ++ [?e]) ++ _ |- _ => exists (e :: new)
    end.
    rewrite Ht, <- app_assoc. split; [done|].
    split; [simpl; by rewrite Hcs|].
    intros e [->|He]%elem_of_cons; [|by apply Hnew].
    split_hyps; simplify_eq/=; eauto.
Qed.

Lemma callbacks_remove_all r ids q :
  NoDup ids → (∀ x, x ∈ ids → x ∈ q) →
  (length (filter (λ x, x = r) ids) + linked r (remove_all ids q))%nat
  = linked r q.
Proof.
  revert q. induction ids as [|r1 ids IH]; intros q Hnd Hsub; [done|].
  apply NoDup_cons in Hnd as [Hr1 Hnd]. simpl.
  rewrite filter_cons.
  rewrite <- (linked_remove r r1 q) by (apply Hsub, list_elem_of_here).
  rewrite <- (IH (QUEUE_REMOVE r1 q)); [by destruct (decide (r1 = r))|done|].
  intros x Hx. apply list_elem_of_filter. split; [by intros ->|].
  by apply Hsub, list_elem_of_further.
Qed.

Lemma closing_step_poll cfg w w' e :
  inv w → stage w ≠ Fresh → closing (file w) = true →
  step cfg w (Poll e) = Some w' → closing_post w w'.
Proof.
  intros Hi Hst Hc Hs. step_exec Hs. unfold writePollCb in Hs.
  destruct Hen as [Hactive Hen]. revert Hi.
  mexec; prop_bools; intros Hi.
  1: by (split; [done|split; [done|]]; trace_new; closing_finish Hi).
  all: match goal with
       | Hr : p_read_ok _ = true |- _ =>
           destruct (Hen Hr) as (Hnd & Hsub & Hlen); clear Hen
       end.
  all: match goal with
       | H : writePollCb_events _ _ _ _ = Some _ |- _ =>
           apply closing_events in H as
             (Hb & Hf & Hq & Hr & Hk & Hst' & new & Ht & Hcs & Hnew);
           [|done]
       end.
  all: try discriminate Hb.
  all: rewrite ?Hf in *; simpl in *; try congruence.
  all: assert (Hin : ∀ x, x ∈ map ev_data (p_events e) →
                     x ∈ write_queue (file w))
         by (intros x Hx; destruct Hi as [_ _ _ _ Hkaio];
             by destruct (Hkaio x (Hsub x Hx)) as (_ & ? & _)).
  all: split; [simpl; by rewrite ?Hf|split; [simpl; congruence|]].
  all: simpl; rewrite ?Hf, Ht, <- ?app_assoc; simpl.
  all: eexists; split; [reflexivity|].
  all: split; [|split].
  all: try (intros r cb st Hr0; rewrite ?elem_of_cons, ?elem_of_app in Hr0;
            destruct Hr0 as [?|[?|Hr0]]; [done|done|];
            try (destruct Hr0 as [Hr0|Hr0]; [|by split_hyps]);
            destruct (Hnew _ Hr0) as (? & ? & ?); congruence).
  all: try (intros r; rewrite !callbacks_cons; simpl;
            rewrite ?callbacks_app, ?callbacks_cons, ?callbacks_nil;
            simpl; rewrite ?Nat.add_0_r;
            unfold callbacks; rewrite Hcs;
            by apply callbacks_remove_all).
  all: intros e0 He0 Hrel; rewrite ?elem_of_cons, ?elem_of_app in He0.
  all: destruct He0 as [->|[->|He0]];
         [by destruct Hrel as [?|[?|[? ?]]]
         |by destruct Hrel as [?|[?|[? ?]]]|].
  all: try (destruct He0 as [He0|He0];
            [|split_hyps; subst; by destruct Hrel as [?|[?|[? ?]]]]).
  all: destruct (Hnew _ He0) as (? & ? & ->);
       by destruct Hrel as [?|[?|[? ?]]].
Qed.

(** One step of a handle on which close has been requested. *)
Lemma closing_step cfg w l w' :
  inv w → stage w ≠ Fresh → closing (file w) = true →
  step cfg w l = Some w' → closing_post w w'.
Proof.
  intros Hi Hst Hc Hs.
  pose proof (closing_step_calls cfg w Hi Hst Hc l) as Hcalls.
  destruct l; try congruence.
  - by eapply closing_step_work_create.
  - by eapply closing_step_after_create.
  - by eapply closing_step_work_write.
  - by eapply closing_step_after_write.
  - by eapply closing_step_poll.
  - by eapply closing_step_poller_closed.
Qed.



(** ** Claims about closing *)

(** A handle on which two writes are in flight when close is requested. *)
Definition closing_sample : list label :=
  opened false true 2 ++
  [ CallWrite 1%nat [Buf 4096 512] 1 0 10%nat submit_ok;
    CallWrite 2%nat [Buf 8192 512] 1 512 11%nat submit_ok;
    CallClose (Some 5%nat) 0 ].

Definition closing_world : world :=
  default (boot blank) (run linux (boot blank) closing_sample).

Lemma closing_world_reachable : reachable linux closing_world.
Proof. exists blank, closing_sample. by vm_compute. Qed.

(** C2: once uvFileClose has been requested on an initialised handle,
    uvFileWrite and uvFileCreate stop at their assertion, so nothing new
    is submitted; and whatever happens next, the eventfd and the AIO
    context of the handle are released and the close callback is invoked
    only by a step that finds the write queue empty, no create request
    under way, no job of the handle in the thread pool and no request
    held by the kernel. *)
Theorem C2_close_drains cfg w :
  reachable cfg w → stage w ≠ Fresh → closing (file w) = true →
  (∀ r bufs n off cb e, uvFileWrite cfg r bufs n off cb e w = None) ∧
  (∀ path size m cb e, uvFileCreate cfg path size m cb e w = None) ∧
  (∀ l w', step cfg w l = Some w' →
     ∃ new, trace w' = trace w ++ new ∧
       ∀ e, e ∈ new → releases (file w) e → quiescent w).
Proof.
  intros Hr%reachable_inv Hst Hc. split; [|split].
  - intros. unfold uvFileWrite, bind, get_file, assert. by rewrite Hc.
  - intros. unfold uvFileCreate, bind, get_file, assert. rewrite Hc.
    by destruct (0 <? size).
  - intros l w' Hs.
    destruct (closing_step _ _ _ _ Hr Hst Hc Hs)
      as (_ & _ & new & Ht & _ & _ & HC).
    by exists new.
Qed.

Lemma C2_close_drains_witness :
  (∀ r bufs n off cb e,
     uvFileWrite linux r bufs n off cb e closing_world = None) ∧
  (∀ path size m cb e,
     uvFileCreate linux path size m cb e closing_world = None) ∧
  (∀ l w', step linux closing_world l = Some w' →
     ∃ new, trace w' = trace closing_world ++ new ∧
       ∀ e, e ∈ new → releases (file closing_world) e →
            quiescent closing_world).
Proof.
  apply (C2_close_drains linux closing_world).
  - exact closing_world_reachable.
  - by vm_compute.
  - by vm_compute.
Defined.





(** ** What the loop of [writePollCb] leaves alone *)

(** Two states of the handle that differ at most in the write queue. *)
Definition frame (f f' : uvFile) : Prop := ∃ q, f' = set_write_queue q f.

Lemma frame_refl f : frame f f.
Proof. exists (write_queue f). by destruct f. Qed.

Lemma frame_set q f : frame f (set_write_queue q f).
Proof. by exists q. Qed.

Lemma frame_trans f1 f2 f3 : frame f1 f2 → frame f2 f3 → frame f1 f3.
Proof. intros [q1 ->] [q2 ->]. by exists q2. Qed.

Lemma writePollCb_events_frame cfg evs qw w b w' :
  writePollCb_events cfg evs qw w = Some (b, w') →
  frame (file w) (file w') ∧
  create_req w' = create_req w ∧ ran w' = ran w ∧ kaio w' = kaio w ∧
  stage w' = stage w.
Proof.
  revert w b w'. induction evs as [|ev evs IH]; simpl; intros w b w' Hs.
  - mexec. split; [apply frame_refl|done].
  - apply bind_Some in Hs as (returned & w1 & Hev & Hs).
    unfold writePollCb_event in Hev. mexec; prop_bools.
    all: try match goal with
         | H : writePollCb_events _ _ _ _ = Some _ |- _ =>
             apply IH in H as (Hf & Hc & Hr & Hk & Hst); simpl in *;
             rewrite Hc, Hr, Hk, Hst
         end.
    all: split; [|done].
    all: first [ apply frame_refl
               | eapply frame_trans; [apply frame_set|done] ].
Qed.

(** ** Order of completion when writes are sequential *)

Definition ordered (w : world) : Prop :=
  (stage w ≠ Created →
   submissions (trace w) = [] ∧ completions (trace w) = []) ∧
  (stage w = Created → n_events (file w) = 1 →
   submissions (trace w) = completions (trace w) ++ write_queue (file w) ∧
   (length (write_queue (file w)) ≤ 1)%nat).

Lemma submissions_snoc t e :
  submissions (t ++ [e]) =
  submissions t ++
  match e with
  | ReturnWrite r rv => if rv =? 0 then [r] else []
  | _ => []
  end.
Proof.
  rewrite submissions_app. f_equal. destruct e; try done.
  unfold submissions. simpl. by destruct (rv =? 0).
Qed.

Lemma completions_snoc t e :
  completions (t ++ [e]) =
  completions t ++ match e with WriteCb r _ _ => [r] | _ => [] end.
Proof. rewrite completions_app. f_equal. by destruct e. Qed.

Lemma QUEUE_REMOVE_singleton r : QUEUE_REMOVE r [r] = [].
Proof. unfold QUEUE_REMOVE. by rewrite filter_cons, decide_False by tauto. Qed.

Lemma short_queue (r : nat) (q : list nat) :
  r ∈ q → (length q ≤ 1)%nat → q = [r].
Proof.
  destruct q as [|a [|b q]]; simpl; intros Hin Hlen; [| |lia].
  - by apply elem_of_nil in Hin.
  - by apply list_elem_of_singleton in Hin as ->.
Qed.

Ltac ordered_finish :=
  rewrite ?submissions_snoc, ?completions_snoc; simpl;
  repeat match goal with
  | H : ?x ≠ 0 |- context [?x =? 0] =>
      rewrite (proj2 (Z.eqb_neq x 0) H)
  | H : ?x = 0 |- context [?x =? 0] => rewrite H; simpl
  end;
  rewrite ?app_nil_r;
  try congruence;
  try match goal with
  | Ho : stage ?w = Created → n_events _ = 1 → _,
    H1 : stage ?w = Created, H2 : n_events _ = 1 |- _ =>
      let Hsubs := fresh "Hsubs" in
      let Hlen := fresh "Hlen" in
      destruct (Ho H1 H2) as [Hsubs Hlen]; clear Ho;
      try match goal with
      | Hin : ?r ∈ write_queue ?f |- _ =>
          rewrite (short_queue r _ Hin Hlen) in *
      end;
      rewrite Hsubs
  | Ho : stage ?w ≠ Created → _, H1 : stage ?w ≠ Created |- _ =>
      let Hsubs := fresh "Hsubs" in
      let Hcs := fresh "Hcs" in
      destruct (Ho H1) as [Hsubs Hcs]; clear Ho;
      rewrite ?Hsubs, ?Hcs
  | Ho : stage ?w ≠ Created → _, H1 : stage ?w = Inited |- _ =>
      let Hsubs := fresh "Hsubs" in
      let Hcs := fresh "Hcs" in
      destruct (Ho ltac:(congruence)) as [Hsubs Hcs]; clear Ho;
      rewrite ?Hsubs, ?Hcs
  | Ho : stage ?w ≠ Created → _, H1 : stage ?w = Fresh |- _ =>
      let Hsubs := fresh "Hsubs" in
      let Hcs := fresh "Hcs" in
      destruct (Ho ltac:(congruence)) as [Hsubs Hcs]; clear Ho;
      rewrite ?Hsubs, ?Hcs
  end;
  try match goal with
  | H : write_queue ?f = [] |- _ => rewrite H in *
  end;
  unfold QUEUE_PUSH; rewrite ?QUEUE_REMOVE_singleton, <- ?app_assoc; simpl;
  try done; try (split; [done|simpl; lia]).

Ltac ordered_case Hi Ho Hs :=
  let Ho1 := fresh "Ho1" in
  let Ho2 := fresh "Ho2" in
  destruct Ho as [Ho1 Ho2]; step_exec Hs; unfold_code;
  revert Hi Ho1 Ho2;
  mexec; prop_bools; intros Hi Ho1 Ho2; destruct_inv Hi; chain; use_stage;
  (split; simpl; intros); ordered_finish.

Section ordered.
Context (cfg : build) (w w' : world).
Hypothesis (Hi : inv w) (Ho : ordered w).

Lemma ordered_after_write r :
  step cfg w (AfterWrite r) = Some w' → ordered w'.
Proof using Hi Ho. intros Hs. ordered_case Hi Ho Hs. Qed.

Lemma ordered_work_write r e :
  step cfg w (WorkWrite r e) = Some w' → ordered w'.
Proof using Hi Ho. intros Hs. ordered_case Hi Ho Hs. Qed.

Lemma ordered_work_create e :
  step cfg w (WorkCreate e) = Some w' → ordered w'.
Proof using Hi Ho. intros Hs. ordered_case Hi Ho Hs. Qed.

Lemma ordered_after_create ps :
  step cfg w (AfterCreate ps) = Some w' → ordered w'.
Proof using Hi Ho. intros Hs. ordered_case Hi Ho Hs. Qed.

Lemma ordered_poller_closed rc rd :
  step cfg w (PollerClosed rc rd) = Some w' → ordered w'.
Proof using Hi Ho. intros Hs. ordered_case Hi Ho Hs. Qed.

Lemma ordered_close cb rc :
  step cfg w (CallClose cb rc) = Some w' → ordered w'.
Proof using Hi Ho. intros Hs. ordered_case Hi Ho Hs. Qed.

Lemma ordered_init d a e :
  step cfg w (CallInit d a e) = Some w' → ordered w'.
Proof using Hi Ho. intros Hs. ordered_case Hi Ho Hs. Qed.

Lemma ordered_create p sz m cb e :
  step cfg w (CallCreate p sz m cb e) = Some w' → ordered w'.
Proof using Hi Ho. intros Hs. ordered_case Hi Ho Hs. Qed.

Lemma ordered_write r bufs n off cb e :
  step cfg w (CallWrite r bufs n off cb e) = Some w' → ordered w'.
Proof using Hi Ho.
  intros Hs. destruct Ho as [Ho1 Ho2]. step_exec Hs. unfold_code.
  revert Hi Ho1 Ho2.
  mexec; prop_bools; intros Hi Ho1 Ho2; destruct_inv Hi; use_stage.
  all: assert (stage w = Created) by
    (destruct (stage w); [done| destruct Hinited; [done|lia] |done]).
  all: split; simpl; intros; ordered_finish.
Qed.
End ordered.

Lemma frame_n_events f f' : frame f f' → n_events f' = n_events f.
Proof. by intros [q ->]. Qed.


Lemma ordered_poll cfg w w' e :
  inv w → ordered w → step cfg w (Poll e) = Some w' → ordered w'.
Proof.
  intros Hi Ho Hs. step_exec Hs. unfold writePollCb in Hs.
  destruct Hen as [Hactive Hen]. destruct Ho as [Ho1 Ho2].
  revert Hi Ho1 Ho2.
  mexec; prop_bools; intros Hi Ho1 Ho2.
  1: by (split; simpl; intros; ordered_finish).
  all: match goal with
       | Hr : p_read_ok _ = true |- _ =>
           destruct (Hen Hr) as (Hnd & Hsub & Hlen); clear Hen
       end.
  all: destruct (p_events e) as [|ev evs] eqn:Hevs; [simpl in *; lia|].
  all: assert (Hk : ev_data ev ∈ kaio w)
         by (apply Hsub; simpl; apply list_elem_of_here).
  all: destruct_inv Hi; chain; use_stage.
  all: destruct (decide (n_events (file w) = 1)) as [Hn|Hn].
  all: try (match goal with
            | H : writePollCb_events _ _ _ _ = Some _ |- _ =>
                apply writePollCb_events_frame in H
                  as (Hf%frame_n_events & _ & _ & _ & Hst')
            end; simpl in *; split; simpl; intros; congruence).
  all: destruct evs; [|simpl in *; lia].
  all: simpl in *; unfold writePollCb_event in *; mexec; prop_bools.
  all: split; simpl; intros; ordered_finish.
Qed.

Lemma step_ordered cfg w l w' :
  inv w → ordered w → step cfg w l = Some w' → ordered w'.
Proof.
  intros Hi Ho. destruct l.
  - by apply ordered_init.
  - by apply ordered_create.
  - by apply ordered_write.
  - by apply ordered_close.
  - by apply ordered_work_create.
  - by apply ordered_after_create.
  - by apply ordered_work_write.
  - by apply ordered_after_write.
  - by apply ordered_poll.
  - by apply ordered_poller_closed.
Qed.

Lemma run_ordered cfg ls w w' :
  inv w → ordered w → run cfg w ls = Some w' → ordered w'.
Proof.
  revert w. induction ls as [|l ls IH]; simpl; intros w Hi Ho Hr.
  - by injection Hr as <-.
  - destruct (step cfg w l) as [w1|] eqn:Hs; [|done].
    eapply IH; [by eapply step_inv|by eapply step_ordered|done].
Qed.

(** ** Claim about the order of completion *)

(** The property as the claim has it: the callbacks fire in the order of
    the accepted submissions. *)
Definition completes_in_submission_order (cfg : build) : Prop :=
  ∀ w, reachable cfg w →
    ∃ rest, submissions (trace w) = completions (trace w) ++ rest.

(** Two writes in flight on a handle created for two concurrent writes;
    the kernel reports the second one first. *)
Definition overtaking_sample : list label :=
  opened false true 2 ++
  [ CallWrite 1%nat [Buf 4096 512] 1 0 10%nat submit_ok;
    CallWrite 2%nat [Buf 8192 512] 1 512 11%nat submit_ok;
    Poll (wake [IoEvent 2%nat 512; IoEvent 1%nat 512]) ].

Definition overtaking_world : world :=
  default (boot blank) (run linux (boot blank) overtaking_sample).

(** C7, as stated, fails: with room for two concurrent writes, request 1
    is accepted before request 2 and its callback fires after the one
    of request 2. *)
Lemma C7_counterexample : ¬ completes_in_submission_order linux.
Proof.
  intros H. destruct (H overtaking_world) as [rest Hrest].
  - exists blank, overtaking_sample. by vm_compute.
  - vm_compute in Hrest. discriminate Hrest.
Qed.

(** C7, amended: on a handle created with room for one write at a time
    a write is only accepted while no other one is in flight, and the
    accepted submissions are, in their order, the requests whose
    callback has fired followed by the one still linked in the queue, if
    any. *)
Theorem C7_sequential_order cfg w :
  reachable cfg w → stage w = Created → n_events (file w) = 1 →
  submissions (trace w) = completions (trace w) ++ write_queue (file w) ∧
  (length (write_queue (file w)) ≤ 1)%nat ∧
  (write_queue (file w) ≠ [] →
   ∀ r bufs n off cb e, uvFileWrite cfg r bufs n off cb e w = None).
Proof.
  intros (f0 & ls & Hr) Hst Hn.
  assert (Ho : ordered w).
  { eapply run_ordered; [apply boot_inv| |done].
    split; [done|]. by intros [=]. }
  destruct Ho as [_ Ho]. destruct (Ho Hst Hn) as [Hsubs Hlen].
  split; [done|]. split; [done|].
  intros Hq r bufs n off cb e.
  unfold uvFileWrite, bind, get_file, assert. simpl.
  destruct (negb (closing (file w))); [|done].
  destruct (state (file w) =? READY); [|done]. simpl.
  rewrite Hn. simpl. by destruct (write_queue (file w)).
Qed.

Definition sequential_sample : list label :=
  opened false false 1 ++
  [ CallWrite 1%nat [Buf 4096 512] 1 0 10%nat submit_ok;
    WorkWrite 1%nat (work_ok 512);
    AfterWrite 1%nat;
    CallWrite 2%nat [Buf 8192 512] 1 512 11%nat submit_ok ].

Definition sequential_world : world :=
  default (boot blank) (run linux (boot blank) sequential_sample).

Lemma C7_sequential_order_witness :
  submissions (trace sequential_world) =
    completions (trace sequential_world) ++
    write_queue (file sequential_world) ∧
  (length (write_queue (file sequential_world)) ≤ 1)%nat ∧
  (write_queue (file sequential_world) ≠ [] →
   ∀ r bufs n off cb e,
     uvFileWrite linux r bufs n off cb e sequential_world = None).
Proof.
  apply (C7_sequential_order linux sequential_world).
  - exists blank, sequential_sample. by vm_compute.
  - by vm_compute.
  - by vm_compute.
Defined.

(** ** Claim about write errors *)






Lemma maybeClosed_state w u w' :
  maybeClosed w = Some (u, w') → state (file w') = state (file w).
Proof. intros Hs. unfold maybeClosed in Hs. by mexec. Qed.




(** ** Claim about the fallback to the thread pool *)

(** Request [r] waits in the thread pool, linked in the queue, with the
    eventfd and the no-wait flag cleared in its control block. *)
Definition parked (r : nat) (w : world) : Prop :=
  JWrite r ∈ queued w ∧ r ∈ write_queue (file w) ∧
  ∃ q, writes w !! r = Some q ∧
    Z.land (aio_flags (w_iocb q)) IOCB_FLAG_RESFD = 0 ∧
    aio_resfd (w_iocb q) = 0 ∧
    Z.land (aio_rw_flags (w_iocb q)) RWF_NOWAIT = 0.

Lemma land_clear (x c : Z) : Z.land (Z.land x (Z.lnot c)) c = 0.
Proof.
  rewrite <- Z.land_assoc, (Z.land_comm (Z.lnot _)), Z.land_lnot_diag.
  apply Z.land_0_r.
Qed.

Lemma clear_nowait_flags b :
  Z.land (aio_flags (clear_nowait b)) IOCB_FLAG_RESFD = 0 ∧
  aio_resfd (clear_nowait b) = 0 ∧
  Z.land (aio_rw_flags (clear_nowait b)) RWF_NOWAIT = 0 ∧
  Z.land (aio_rw_flags (clear_nowait b)) RWF_DSYNC
  = Z.land (aio_rw_flags b) RWF_DSYNC.
Proof.
  unfold clear_nowait. simpl. repeat split.
  - rewrite <- Z.land_assoc, (Z.land_comm (Z.lnot _)), Z.land_lnot_diag.
    apply Z.land_0_r.
  - rewrite <- Z.land_assoc, (Z.land_comm (Z.lnot _)), Z.land_lnot_diag.
    apply Z.land_0_r.
  - by rewrite <- Z.land_assoc.
Qed.

(** The property as the claim has it, for a would-block or unsupported
    answer of io_submit ... *)
Definition submit_falls_back (cfg : build) : Prop :=
  ∀ w r bufs n off cb e,
    state (file w) = READY → closing (file w) = false →
    async (file w) = true → 0 ≤ fd (file w) → 0 ≤ event_fd (file w) →
    ctx (file w) ≠ 0 → 0 < n →
    (n_events (file w) = 1 → write_queue (file w) = []) →
    we_io_submit e = -1 →
    we_errno e = EAGAIN ∨ we_errno e = EOPNOTSUPP →
    we_queue_work e = 0 →
    ∃ w', uvFileWrite cfg r bufs n off cb e w = Some (0, w') ∧ parked r w'.

(** ... and for a would-block completion event. *)
Definition completion_falls_back (cfg : build) : Prop :=
  ∀ w ev q,
    state (file w) = READY →
    writes w !! ev_data ev = Some q →
    ev_data ev ∈ write_queue (file w) →
    ev_res ev = - EAGAIN →
    ∃ w', writePollCb_event cfg ev 0 w = Some (true, w') ∧
          parked (ev_data ev) w'.

Definition ready_world : world :=
  default (boot blank) (run linux (boot blank) (opened false true 2)).

Definition one_in_flight : list label :=
  opened false true 2 ++
  [ CallWrite 1%nat [Buf 4096 512] 1 0 10%nat submit_ok;
    CallClose None 0 ].

Definition one_in_flight_world : world :=
  default (boot blank) (run linux (boot blank) one_in_flight).

(** C3, as stated, fails twice: EOPNOTSUPP from io_submit runs into
    assert(0), and a would-block completion that arrives after close
    was requested finishes the request as cancelled instead of handing
    it to the thread pool. *)
Lemma C3_counterexample :
  ¬ submit_falls_back linux ∧ ¬ completion_falls_back linux.
Proof.
  split; intros H.
  - destruct (H ready_world 1%nat [Buf 4096 512] 1 0 10%nat
                (WriteEnv (-1) EOPNOTSUPP 0)) as (w' & Hw & _);
      [first [by right | by vm_compute] .. |].
    vm_compute in Hw. discriminate Hw.
  - destruct (H one_in_flight_world (IoEvent 1%nat (- EAGAIN))
                (default (WriteReq 0 0 (Iocb 0 0 0 0 0 [] 0 0 0 0))
                         (writes one_in_flight_world !! 1%nat)))
      as (w' & Hw & _);
      [first [by vm_compute
             | vm_compute; apply list_elem_of_In; simpl; tauto] .. |].
    vm_compute in Hw. discriminate Hw.
Qed.

Lemma prepare_iocb_flags cfg f r bufs n off :
  has_RWF_NOWAIT cfg = true → async f = true →
  aio_flags (prepare_iocb cfg f r bufs n off) = IOCB_FLAG_RESFD ∧
  aio_resfd (prepare_iocb cfg f r bufs n off) = event_fd f ∧
  Z.land (aio_rw_flags (prepare_iocb cfg f r bufs n off)) RWF_NOWAIT
  = RWF_NOWAIT.
Proof.
  intros Hn Ha. unfold prepare_iocb. rewrite Hn, Ha. simpl.
  by destruct (has_RWF_HIPRI cfg), (has_RWF_DSYNC cfg).
Qed.

(** C3, amended: where RWF_NOWAIT exists, on a READY handle that is not
    closing, (1) a would-block answer of io_submit makes uvFileWrite
    clear the eventfd and no-wait flags of the request, hand it to the
    thread pool and return 0; (2) a would-block completion event makes
    the poll callback do the same with the request of the event; and
    (3) when the after-work callback of a request runs, the callback of
    the request fires with the status the request holds.  In (1) and (2)
    uv_queue_work is taken to succeed. *)
Theorem C3_would_block_falls_back cfg w :
  has_RWF_NOWAIT cfg = true →
  state (file w) = READY → closing (file w) = false →
  (∀ r bufs n off cb e,
     async (file w) = true → 0 ≤ fd (file w) → 0 ≤ event_fd (file w) →
     ctx (file w) ≠ 0 → 0 < n →
     (n_events (file w) = 1 → write_queue (file w) = []) →
     we_io_submit e = -1 → we_errno e = EAGAIN → we_queue_work e = 0 →
     ∃ w', uvFileWrite cfg r bufs n off cb e w = Some (0, w') ∧
           parked r w') ∧
  (∀ ev q,
     writes w !! ev_data ev = Some q →
     ev_data ev ∈ write_queue (file w) →
     ev_res ev = - EAGAIN →
     ∃ w', writePollCb_event cfg ev 0 w = Some (true, w') ∧
           parked (ev_data ev) w') ∧
  (∀ r q,
     writes w !! r = Some q →
     ∃ w', writeAfterWorkCb r 0 w = Some (tt, w') ∧
           WriteCb r (w_cb q) (w_status q) ∈ trace w').
Proof.
  intros Hnw Hst Hc. split; [|split].
  - intros r bufs n off cb e Ha Hfd Hefd Hctx Hn Hq Hsub Herr Hqw.
    destruct w as [f cr ws qd rn k t sg].
    destruct f as [st0 fd0 dr0 as0 efd0 ep0 ctx0 n_events0 write_queue0
                     cl0 ccb0].
    simpl in *. subst.
    apply Z.leb_le in Hfd, Hefd. apply Z.eqb_neq in Hctx.
    apply Z.ltb_lt in Hn.
    assert (Hq' : (if n_events0 =? 1 then QUEUE_IS_EMPTY write_queue0
                   else true) = true).
    { destruct (Z.eqb_spec n_events0 1) as [H1|]; [|done].
      by rewrite (Hq H1). }
    unfold uvFileWrite, bind, get_file, assert, old_status, put_write,
      upd_file, io_submit, emit, ret, uv_queue_work, pool_add, kaio_add.
    simpl. rewrite Hnw, Hsub, Herr, Hqw, Hfd, Hefd, Hctx, Hn. simpl.
    destruct (n_events0 =? 1); simpl; rewrite ?Hq'; simpl.
    all: eexists; (split; [reflexivity|]); unfold parked; simpl.
    all: split; [apply elem_of_app; right; apply list_elem_of_here|].
    all: split; [apply elem_of_app; right; apply list_elem_of_here|].
    all: eexists; rewrite lookup_insert_eq; (split; [done|]); simpl.
    all: by rewrite !land_clear.
  - intros ev q Hq Hin Hres.
    unfold writePollCb_event, bind, get_write, get_file, put_write,
      uv_queue_work, emit, pool_add, ret.
    rewrite Hq. simpl. rewrite Hc, Hnw, Hres. simpl.
    eexists. split; [reflexivity|]. unfold parked. simpl.
    split; [apply elem_of_app; right; apply list_elem_of_here|].
    split; [done|].
    eexists. rewrite lookup_insert_eq. split; [done|]. simpl.
    by rewrite !land_clear.
  - intros r q Hq.
    unfold writeAfterWorkCb, writeFinish, maybeClosed, bind, assert,
      get_write, get_file, put_write, upd_file, emit, ret.
    simpl. rewrite Hq. simpl. rewrite Hst, Hc. simpl. rewrite Hq. simpl.
    rewrite Hst, Hc. simpl.
    eexists. split; [reflexivity|]. simpl.
    apply elem_of_app. right. apply list_elem_of_here.
Qed.

Definition in_flight_world : world :=
  default (boot blank)
    (run linux (boot blank)
       (opened false true 2 ++
        [CallWrite 1%nat [Buf 4096 512] 1 0 10%nat submit_ok])).

Lemma C3_would_block_falls_back_witness :
  (∃ w', uvFileWrite linux 2%nat [Buf 8192 512] 1 512 11%nat
           (WriteEnv (-1) EAGAIN 0) in_flight_world = Some (0, w') ∧
         parked 2%nat w') ∧
  (∃ w', writePollCb_event linux (IoEvent 1%nat (- EAGAIN)) 0
           in_flight_world = Some (true, w') ∧
         parked 1%nat w').
Proof.
  destruct (C3_would_block_falls_back linux in_flight_world)
    as (H1 & H2 & _); [by vm_compute ..|].
  split.
  - apply H1; by vm_compute.
  - apply (H2 (IoEvent 1%nat (- EAGAIN))
              (default (WriteReq 0 0 (Iocb 0 0 0 0 0 [] 0 0 0 0))
                       (writes in_flight_world !! 1%nat)));
      [by vm_compute
      |vm_compute; apply list_elem_of_In; simpl; tauto
      |by vm_compute].
Defined.

(** ** Claim about draining the completion events *)

(** The value read from the eventfd plays no part in [writePollCb]. *)
Lemma writePollCb_ignores_counter cfg e c w :
  writePollCb cfg e w =
  writePollCb cfg
    (PollEnv (p_status e) (p_readable e) (p_read_ok e) c (p_errno e)
             (p_events e) (p_queue_work e)) w.
Proof. done. Qed.

(** Two writes in flight; one wake-up brings both completion events, the
    first with would-block. *)
Definition dropped_sample : list label :=
  opened false true 2 ++
  [ CallWrite 1%nat [Buf 4096 512] 1 0 10%nat submit_ok;
    CallWrite 2%nat [Buf 8192 512] 1 512 11%nat submit_ok;
    Poll (wake [IoEvent 1%nat (- EAGAIN); IoEvent 2%nat 512]) ].

Definition dropped_world : world :=
  default (boot blank) (run linux (boot blank) dropped_sample).

(** A request that nothing will ever finish: linked in the queue, but
    neither held by the kernel nor known to the thread pool. *)
Definition orphan (r : nat) (w : world) : Prop :=
  stage w = Created ∧ r ∈ write_queue (file w) ∧ (r ∉ kaio w) ∧
  (JWrite r ∉ queued w) ∧ (JWrite r ∉ ran w).

Lemma dropped_world_run :
  run linux (boot blank) dropped_sample = Some dropped_world.
Proof. by vm_compute. Qed.

Lemma dropped_world_orphan : orphan 2%nat dropped_world.
Proof.
  unfold orphan. split; [by vm_compute|].
  split; [vm_compute; apply list_elem_of_In; simpl; tauto|].
  repeat split; intros H%list_elem_of_In; vm_compute in H;
    intuition congruence.
Qed.

(** What a step does to an orphan: nothing. *)
Definition orphan_post (r : nat) (w w' : world) : Prop :=
  orphan r w' ∧
  ∃ new, trace w' = trace w ++ new ∧ callbacks r new = 0%nat ∧
         ∀ cb, CloseCb cb ∉ new.

Ltac orphan_finish :=
  rewrite ?aio_data_prepare_iocb in *;
  split;
  [ repeat split; simpl; finish
  | trace_new; split;
    [ rewrite ?callbacks_cons, ?callbacks_nil; simpl;
      repeat match goal with
      | |- context [decide (?a = ?b)] =>
          let Heq := fresh in
          destruct (decide (a = b)) as [Heq|];
          [exfalso; first [congruence | subst; done]|]
      end; done
    | intros ? ?; split_hyps; discriminate ] ].

Ltac orphan_case Hi Ho Hs :=
  let Hst := fresh "Hst" in
  let Hq := fresh "Hq" in
  let Hk := fresh "Hk" in
  let Hjq := fresh "Hjq" in
  let Hjr := fresh "Hjr" in
  destruct Ho as (Hst & Hq & Hk & Hjq & Hjr);
  step_exec Hs; unfold_code; revert Hi Hst Hq Hk Hjq Hjr;
  mexec; prop_bools; intros Hi Hst Hq Hk Hjq Hjr;
  try congruence;
  try (exfalso;
       match goal with
       | H : write_queue _ = [], Hin : _ ∈ write_queue _ |- _ =>
           rewrite H in Hin; by apply elem_of_nil in Hin
       end);
  destruct Hi as [_ _ _ _ _ _ _ _ _ _ _ Hheap]; chain;
  orphan_finish.

Section orphan.
Context (cfg : build) (r : nat) (w w' : world).
Hypothesis (Hi : inv w) (Ho : orphan r w).

Lemma orphan_after_write r1 :
  step cfg w (AfterWrite r1) = Some w' → orphan_post r w w'.
Proof using Hi Ho. intros Hs. orphan_case Hi Ho Hs. Qed.

Lemma orphan_work_write r1 e :
  step cfg w (WorkWrite r1 e) = Some w' → orphan_post r w w'.
Proof using Hi Ho. intros Hs. orphan_case Hi Ho Hs. Qed.

Lemma orphan_work_create e :
  step cfg w (WorkCreate e) = Some w' → orphan_post r w w'.
Proof using Hi Ho. intros Hs. orphan_case Hi Ho Hs. Qed.

Lemma orphan_after_create ps :
  step cfg w (AfterCreate ps) = Some w' → orphan_post r w w'.
Proof using Hi Ho. intros Hs. orphan_case Hi Ho Hs. Qed.

Lemma orphan_poller_closed rc rd :
  step cfg w (PollerClosed rc rd) = Some w' → orphan_post r w w'.
Proof using Hi Ho. intros Hs. orphan_case Hi Ho Hs. Qed.

Lemma orphan_close cb rc :
  step cfg w (CallClose cb rc) = Some w' → orphan_post r w w'.
Proof using Hi Ho. intros Hs. orphan_case Hi Ho Hs. Qed.

Lemma orphan_init d a e :
  step cfg w (CallInit d a e) = Some w' → orphan_post r w w'.
Proof using Hi Ho. intros Hs. orphan_case Hi Ho Hs. Qed.

Lemma orphan_create p sz m cb e :
  step cfg w (CallCreate p sz m cb e) = Some w' → orphan_post r w w'.
Proof using Hi Ho. intros Hs. orphan_case Hi Ho Hs. Qed.

Lemma orphan_write r1 bufs n off cb e :
  step cfg w (CallWrite r1 bufs n off cb e) = Some w' → orphan_post r w w'.
Proof using Hi Ho. intros Hs. orphan_case Hi Ho Hs. Qed.
End orphan.

Lemma orphan_events cfg r evs qw w b w' :
  r ∉ map ev_data evs → orphan r w →
  writePollCb_events cfg evs qw w = Some (b, w') →
  orphan_post r w w'.
Proof.
  revert w b w'. induction evs as [|ev evs IH]; simpl; intros w b w' Hr Ho Hs.
  - mexec. split; [done|]. exists []. rewrite app_nil_r.
    split; [done|]. split; [done|]. intros ?. apply not_elem_of_nil.
  - apply not_elem_of_cons in Hr as [Hne Hr].
    apply bind_Some in Hs as (returned & w1 & Hev & Hs).
    assert (Hpost : orphan_post r w w1).
    { destruct Ho as (Hst & Hq & Hk & Hjq & Hjr).
      unfold writePollCb_event in Hev. revert Hst Hq Hk Hjq Hjr.
      clear IH Hs.
      mexec; prop_bools; intros Hst Hq Hk Hjq Hjr; orphan_finish. }
    destruct Hpost as (Ho1 & new1 & Ht1 & Hc1 & Hn1).
    destruct returned.
    + mexec. split; [done|]. by exists new1.
    + destruct (IH _ _ _ Hr Ho1 Hs) as (Ho2 & new2 & Ht2 & Hc2 & Hn2).
      split; [done|]. exists (new1 ++ new2).
      rewrite Ht2, Ht1, app_assoc, callbacks_app, Hc1, Hc2.
      split; [done|]. split; [done|].
      intros cb [?|?]%elem_of_app; [by eapply Hn1|by eapply Hn2].
Qed.

Lemma orphan_poll cfg r w w' e :
  inv w → orphan r w → step cfg w (Poll e) = Some w' → orphan_post r w w'.
Proof.
  intros Hi Ho Hs. step_exec Hs. unfold writePollCb in Hs.
  destruct Hen as [Hactive Hen].
  pose proof Ho as (Hst & Hq & Hk & Hjq & Hjr).
  revert Hi Ho Hst Hq Hk Hjq Hjr.
  mexec; prop_bools; intros Hi Ho Hst Hq Hk Hjq Hjr.
  1: by orphan_finish.
  all: match goal with
       | Hr : p_read_ok _ = true |- _ =>
           destruct (Hen Hr) as (Hnd & Hsub & Hlen); clear Hen
       end.
  all: match goal with
       | H : writePollCb_events _ _ _ _ = Some _ |- _ =>
           apply (orphan_events _ r) in H
             as (Ho1 & new & Ht & Hc & Hn);
           [ | by intros ?%Hsub
             | repeat split; simpl; finish ]
       end.
  all: simpl in *.
  all: destruct Ho1 as (Hst1 & Hq1 & Hk1 & Hjq1 & Hjr1).
  all: split; [by repeat split|].
  all: rewrite ?Ht, <- ?app_assoc; simpl.
  all: eexists; split; [reflexivity|].
  all: rewrite ?callbacks_cons, ?callbacks_app, ?callbacks_cons,
         ?callbacks_nil, ?Hc; simpl.
  all: split; [done|].
  all: intros cb Hcb; rewrite ?elem_of_cons, ?elem_of_app in Hcb.
  all: destruct Hcb as [?|[?|Hcb]]; [done|done|].
  all: try (destruct Hcb as [Hcb|Hcb]; [|by split_hyps]).
  all: by eapply Hn.
Qed.

Lemma orphan_step cfg r w l w' :
  inv w → orphan r w → step cfg w l = Some w' → orphan_post r w w'.
Proof.
  intros Hi Ho. destruct l.
  - by apply orphan_init.
  - by apply orphan_create.
  - by apply orphan_write.
  - by apply orphan_close.
  - by apply orphan_work_create.
  - by apply orphan_after_create.
  - by apply orphan_work_write.
  - by apply orphan_after_write.
  - by apply orphan_poll.
  - by apply orphan_poller_closed.
Qed.

(** Whatever happens after a completion event was dropped, the callback
    of its request never fires, and since the request stays linked in
    the queue the close callback of the handle never fires either. *)
Lemma orphan_forever cfg r ls w w' :
  inv w → orphan r w → run cfg w ls = Some w' →
  orphan r w' ∧
  ∃ new, trace w' = trace w ++ new ∧ callbacks r new = 0%nat ∧
         ∀ cb, CloseCb cb ∉ new.
Proof.
  revert w. induction ls as [|l ls IH]; simpl; intros w Hi Ho Hr.
  - injection Hr as <-. split; [done|]. exists []. rewrite app_nil_r.
    split; [done|]. split; [done|]. intros ?. apply not_elem_of_nil.
  - destruct (step cfg w l) as [w1|] eqn:Hs; [|done].
    destruct (orphan_step _ _ _ _ _ Hi Ho Hs) as (Ho1 & new1 & Ht1 & Hc1 & Hn1).
    destruct (IH w1 (step_inv _ _ _ _ Hi Hs) Ho1 Hr)
      as (Ho2 & new2 & Ht2 & Hc2 & Hn2).
    split; [done|]. exists (new1 ++ new2).
    rewrite Ht2, Ht1, app_assoc, callbacks_app, Hc1, Hc2.
    split; [done|]. split; [done|].
    intros cb [?|?]%elem_of_app; [by eapply Hn1|by eapply Hn2].
Qed.

(** C8 at the failing input: the poll callback hands request 1 to the
    thread pool and returns; the completion of request 2, fetched by the
    same io_getevents, is not looked at.  Request 2 stays linked in the
    queue, the kernel has nothing left to report for it, and whatever
    happens afterwards its callback never fires and the close callback
    of the handle never fires either. *)
Theorem C8_events_after_would_block_dropped :
  run linux (boot blank) dropped_sample = Some dropped_world ∧
  write_queue (file dropped_world) = [1%nat; 2%nat] ∧
  queued dropped_world = [JWrite 1%nat] ∧
  kaio dropped_world = [] ∧
  completions (trace dropped_world) = [] ∧
  ∀ ls w', run linux dropped_world ls = Some w' →
    2%nat ∈ write_queue (file w') ∧
    ∃ new, trace w' = trace dropped_world ++ new ∧
           callbacks 2%nat new = 0%nat ∧ ∀ cb, CloseCb cb ∉ new.
Proof.
  split; [exact dropped_world_run|]. do 4 (split; [by vm_compute|]).
  intros ls w' Hr.
  eapply orphan_forever in Hr as [(_ & Hq & _) H];
    [done| |exact dropped_world_orphan].
  apply reachable_inv with linux. exists blank, dropped_sample.
  exact dropped_world_run.
Qed.

(** ** What precedes the first write: how the file is created *)

(** The blocking calls of a successful create, in their order. *)
Definition create_seq (fildes size : Z) (path : string) : list effect :=
  [ SysPosixFallocate fildes 0 size; SysFsync fildes;
    OsSyncDir (Dirname path) ].

(** A trace in which a file was preallocated, synced, and its directory
    synced, one right after the other. *)
Definition created_durably (t : list effect) : Prop :=
  ∃ pre fildes size path post,
    t = pre ++ create_seq fildes size path ++ post.

(** Telling the owner that the create succeeded, or submitting a write
    to the kernel. *)
Definition needs_file (e : effect) : Prop :=
  (∃ cb, e = CreateCb cb 0) ∨ (∃ c b, e = SysIoSubmit c b).

Definition dsync_flag (b : iocb) : Prop :=
  Z.land (aio_rw_flags b) RWF_DSYNC = RWF_DSYNC.

Record tinv (cfg : build) (w : world) : Prop := TInv {
  tinv_before : ∀ pre e post,
    trace w = pre ++ e :: post → needs_file e → created_durably pre;
  tinv_ready : stage w = Created → state (file w) = READY →
    created_durably (trace w) ∧
    (direct (file w) = true → OsSetDirectIO (fd (file w)) ∈ trace w);
  tinv_done : JCreate ∈ ran w → ∀ req, create_req w = Some req →
    c_status req = 0 →
    created_durably (trace w) ∧
    (direct (file w) = true → OsSetDirectIO (fd (file w)) ∈ trace w);
  tinv_heap : has_RWF_DSYNC cfg = true →
    ∀ r q, writes w !! r = Some q → dsync_flag (w_iocb q);
  tinv_submit : has_RWF_DSYNC cfg = true →
    ∀ c b, SysIoSubmit c b ∈ trace w → dsync_flag b;
  tinv_open : has_RWF_DSYNC cfg = false →
    ∀ p flags, SysOpen p flags ∈ trace w → Z.land flags O_DSYNC = O_DSYNC
}.

Lemma created_durably_app t new :
  created_durably t → created_durably (t ++ new).
Proof.
  intros (pre & f & s & p & post & ->).
  exists pre, f, s, p, (post ++ new). by rewrite <- !app_assoc.
Qed.

Lemma before_extend (t new : list effect) :
  (∀ pre e post, t = pre ++ e :: post → needs_file e →
                 created_durably pre) →
  (∀ k e post, new = k ++ e :: post → needs_file e →
               created_durably (t ++ k)) →
  ∀ pre e post, t ++ new = pre ++ e :: post → needs_file e →
                created_durably pre.
Proof.
  intros Ht Hnew pre e post Heq He.
  symmetry in Heq. apply app_eq_app in Heq as [l [[-> Hn]|[-> Hl]]].
  - by eapply Hnew.
  - destruct l as [|e' l]; simpl in Hl.
    + specialize (Hnew [] e post). rewrite !app_nil_r in Hnew.
      apply Hnew; [by rewrite <- Hl|done].
    + injection Hl as <- ->. by eapply Ht.
Qed.

Lemma dsync_clear_nowait b : dsync_flag b → dsync_flag (clear_nowait b).
Proof.
  unfold dsync_flag. intros H.
  by destruct (clear_nowait_flags b) as (_ & _ & _ & ->).
Qed.

Lemma dsync_prepare_iocb cfg f r bufs n off :
  has_RWF_DSYNC cfg = true → dsync_flag (prepare_iocb cfg f r bufs n off).
Proof.
  intros H. unfold dsync_flag, prepare_iocb. rewrite H. simpl.
  by destruct (has_RWF_HIPRI cfg), (has_RWF_NOWAIT cfg && async f).
Qed.

Lemma open_flags_dsync :
  Z.land (Z.lor (Z.lor (Z.lor O_WRONLY O_CREAT) O_EXCL) O_DSYNC) O_DSYNC
  = O_DSYNC.
Proof. done. Qed.

Lemma before_step (t new : list effect) :
  (∀ pre e post, t = pre ++ e :: post → needs_file e →
                 created_durably pre) →
  (∀ e, e ∈ new → needs_file e → created_durably t) →
  ∀ pre e post, t ++ new = pre ++ e :: post → needs_file e →
                created_durably pre.
Proof.
  intros Ht Hnew. apply before_extend; [done|].
  intros k e post -> He. apply created_durably_app, (Hnew e); [|done].
  apply elem_of_app. right. apply list_elem_of_here.
Qed.

Lemma created_durably_seq t fildes size path post :
  created_durably (t ++ create_seq fildes size path ++ post).
Proof. by exists t, fildes, size, path, post. Qed.

Lemma uv_translate_sys_error_0 e : uv_translate_sys_error e = 0 → e = 0.
Proof. unfold uv_translate_sys_error. destruct (Z.leb_spec e 0); lia. Qed.

Ltac tinv_trigger :=
  let e := fresh "e" in
  let He := fresh "He" in
  let Hn := fresh "Hn" in
  intros e He Hn; split_hyps; subst;
  destruct Hn as [[? Hn]|[? [? Hn]]]; simplify_eq/=.

(** Using what was known before the step about the created file. *)
Ltac use_created :=
  match goal with
  | T : stage ?w = Created → state (file ?w) = READY → _ |- _ =>
      let Hcd := fresh "Hcd" in
      let Hd := fresh "Hd" in
      destruct T as [Hcd Hd]; [congruence|congruence|]
  | T : JCreate ∈ ran ?w → ∀ req, _ |- _ =>
      let Hcd := fresh "Hcd" in
      let Hd := fresh "Hd" in
      edestruct T as [Hcd Hd]; [eassumption|eassumption|congruence|]
  end.

Ltac dsync_solve :=
  simpl;
  first
    [ assumption
    | by apply dsync_prepare_iocb
    | match goal with
      | D : has_RWF_DSYNC _ = true → ∀ r q, _ !! r = Some q → _,
        H : _ !! _ = Some ?q |- dsync_flag (w_iocb ?q) => by eapply D
      | D : has_RWF_DSYNC _ = true → ∀ r q, _ !! r = Some q → _,
        H : _ !! _ = Some ?q |- dsync_flag (clear_nowait (w_iocb ?q)) =>
          apply dsync_clear_nowait; by eapply D
      | D : has_RWF_DSYNC _ = true → ∀ c b, SysIoSubmit c b ∈ _ → _
        |- dsync_flag ?b => by eapply D
      end
    | apply dsync_clear_nowait; by apply dsync_prepare_iocb ].

Ltac tinv_finish :=
  rewrite <- ?app_assoc; simpl;
  match goal with
  | |- ∀ pre e post, ?t = pre ++ e :: post → _ => assumption
  | |- ∀ pre e post, ?t ++ _ = pre ++ e :: post → _ =>
      apply before_step;
      [ assumption
      | tinv_trigger; try use_created; try assumption ]
  | |- _ → _ → created_durably _ ∧ _ =>
      intros; split_hyps; light_eq;
      try match goal with
      | H : (if ?c =? 0 then READY else ERRORED) = READY |- _ =>
          destruct (Z.eqb_spec c 0); [|by vm_compute in H]
      end;
      try (exfalso; unfold CREATING, READY, ERRORED, CLOSED in *;
           first [ lia | congruence ]);
      try (use_created;
           split;
           [ first [ assumption | by apply created_durably_app ]
           | first [ assumption
                   | intros; apply elem_of_app; left; auto ] ])
  | |- _ → ∀ req, _ → _ → created_durably _ ∧ _ =>
      intros; split_hyps; light_eq; chain;
      try (exfalso; congruence);
      try (use_created;
           split;
           [ first [ assumption | by apply created_durably_app ]
           | first [ assumption
                   | intros; apply elem_of_app; left; auto ] ])
  | |- _ → ∀ r q, _ !! r = Some q → _ =>
      intros; split_hyps; light_eq; try dsync_solve
  | |- _ → ∀ c b, SysIoSubmit c b ∈ _ → _ =>
      intros; split_hyps; simplify_eq/=; try dsync_solve
  | |- _ → ∀ p flags, SysOpen p flags ∈ _ → _ =>
      intros; split_hyps; simplify_eq/=;
      first [ by eauto | congruence | done
            | match goal with
              | H : has_RWF_DSYNC _ = false |- _ =>
                  rewrite H; apply open_flags_dsync
              end
            | idtac ]
  | _ => idtac
  end.

Ltac tinv_case Hi Ht Hs :=
  let T1 := fresh "T1" in
  let T2 := fresh "T2" in
  let T3 := fresh "T3" in
  let D1 := fresh "D1" in
  let D2 := fresh "D2" in
  let D3 := fresh "D3" in
  destruct Ht as [T1 T2 T3 D1 D2 D3]; step_exec Hs; unfold_code;
  revert Hi T1 T2 T3 D1 D2 D3;
  mexec; prop_bools; intros Hi T1 T2 T3 D1 D2 D3; destruct_inv Hi; chain;
  use_stage; (split; simpl); tinv_finish.

Section tinv.
Context (cfg : build) (w w' : world).
Hypothesis (Hi : inv w) (Ht : tinv cfg w).

Lemma tinv_after_write r :
  step cfg w (AfterWrite r) = Some w' → tinv cfg w'.
Proof using Hi Ht. intros Hs. tinv_case Hi Ht Hs. Qed.

Lemma tinv_work_write r e :
  step cfg w (WorkWrite r e) = Some w' → tinv cfg w'.
Proof using Hi Ht. intros Hs. tinv_case Hi Ht Hs.
Qed.

Lemma tinv_poller_closed rc rd :
  step cfg w (PollerClosed rc rd) = Some w' → tinv cfg w'.
Proof using Hi Ht. intros Hs. tinv_case Hi Ht Hs.
Qed.

Lemma tinv_close cb rc :
  step cfg w (CallClose cb rc) = Some w' → tinv cfg w'.
Proof using Hi Ht. intros Hs. tinv_case Hi Ht Hs.
Qed.

Lemma tinv_init d a e :
  step cfg w (CallInit d a e) = Some w' → tinv cfg w'.
Proof using Hi Ht. intros Hs. tinv_case Hi Ht Hs.
Qed.

Lemma tinv_create p sz m cb e :
  step cfg w (CallCreate p sz m cb e) = Some w' → tinv cfg w'.
Proof using Hi Ht. intros Hs. tinv_case Hi Ht Hs.
Qed.

Lemma tinv_write r bufs n off cb e :
  step cfg w (CallWrite r bufs n off cb e) = Some w' → tinv cfg w'.
Proof using Hi Ht.
  intros Hs. destruct Ht as [T1 T2 T3 D1 D2 D3]. step_exec Hs.
  unfold_code. revert Hi T1 T2 T3 D1 D2 D3.
  mexec; prop_bools; intros Hi T1 T2 T3 D1 D2 D3; destruct_inv Hi;
    use_stage.
  all: assert (stage w = Created) by
    (destruct (stage w); [done| destruct Hinited; [done|lia] |done]).
  all: split; simpl; tinv_finish.
Qed.

Lemma tinv_after_create ps :
  step cfg w (AfterCreate ps) = Some w' → tinv cfg w'.
Proof using Hi Ht. intros Hs. tinv_case Hi Ht Hs.
Qed.

Lemma tinv_work_create e :
  step cfg w (WorkCreate e) = Some w' → tinv cfg w'.
Proof using Hi Ht.
  intros Hs. tinv_case Hi Ht Hs.
  all: simplify_eq/=.
  all: try match goal with
       | H : uv_translate_sys_error _ = 0 |- _ =>
           apply uv_translate_sys_error_0 in H
       end.
  all: try (exfalso; first [congruence | by apply Herrno]).
  all: split; [apply created_durably_seq|].
  all: intros Hd; try congruence.
  all: apply elem_of_app; right; rewrite !elem_of_cons; tauto.
Qed.
End tinv.

Ltac tinv_split Ht :=
  let T1 := fresh "T1" in
  let T2 := fresh "T2" in
  let T3 := fresh "T3" in
  let D1 := fresh "D1" in
  let D2 := fresh "D2" in
  let D3 := fresh "D3" in
  destruct Ht as [T1 T2 T3 D1 D2 D3]; (split; simpl); tinv_finish.

Lemma event_tinv cfg ev qw w b w' :
  tinv cfg w → writePollCb_event cfg ev qw w = Some (b, w') → tinv cfg w'.
Proof.
  intros Ht Hs. unfold writePollCb_event in Hs. revert Ht.
  mexec; prop_bools; intros Ht; tinv_split Ht.
Qed.

Lemma events_tinv cfg evs qw w b w' :
  tinv cfg w → writePollCb_events cfg evs qw w = Some (b, w') → tinv cfg w'.
Proof.
  revert w b w'. induction evs as [|ev evs IH]; simpl; intros w b w' Ht Hs.
  - by mexec.
  - apply bind_Some in Hs as (returned & w1 & Hev & Hs).
    apply event_tinv in Hev; [|done]. destruct returned.
    + by mexec.
    + by eapply IH.
Qed.

Lemma tinv_poll cfg w w' e :
  inv w → tinv cfg w → step cfg w (Poll e) = Some w' → tinv cfg w'.
Proof.
  intros Hi Ht Hs. step_exec Hs. unfold writePollCb in Hs. clear Hen Hi.
  revert Ht.
  mexec; prop_bools; intros Ht.
  1: by tinv_split Ht.
  all: match goal with
       | H : writePollCb_events _ _ _ _ = Some _ |- _ =>
           apply events_tinv in H; [clear Ht; rename H into Ht|tinv_split Ht]
       end.
  all: try assumption.
  all: tinv_split Ht.
Qed.

Lemma step_tinv cfg w l w' :
  inv w → tinv cfg w → step cfg w l = Some w' → tinv cfg w'.
Proof.
  intros Hi Ht. destruct l.
  - by apply tinv_init.
  - by apply tinv_create.
  - by apply tinv_write.
  - by apply tinv_close.
  - by apply tinv_work_create.
  - by apply tinv_after_create.
  - by apply tinv_work_write.
  - by apply tinv_after_write.
  - by apply tinv_poll.
  - by apply tinv_poller_closed.
Qed.

Lemma run_tinv cfg ls w w' :
  inv w → tinv cfg w → run cfg w ls = Some w' → tinv cfg w'.
Proof.
  revert w. induction ls as [|l ls IH]; simpl; intros w Hi Ht Hr.
  - by injection Hr as <-.
  - destruct (step cfg w l) as [w1|] eqn:Hs; [|done].
    eapply IH; [by eapply step_inv|by eapply step_tinv|done].
Qed.

Lemma boot_tinv cfg f0 : tinv cfg (boot f0).
Proof.
  split; simpl.
  - intros [|??] ? ? H; discriminate H.
  - done.
  - by intros ?%elem_of_nil.
  - intros _ r q H. by rewrite lookup_empty in H.
  - by intros _ ? ? ?%elem_of_nil.
  - by intros _ ? ? ?%elem_of_nil.
Qed.

Lemma reachable_tinv cfg w : reachable cfg w → tinv cfg w.
Proof.
  intros (f0 & ls & Hr).
  eapply run_tinv; [apply boot_inv|apply boot_tinv|done].
Qed.

(** ** Which preallocations a run can contain *)

(** Every preallocation in the trace is the one of the pending create
    request: of the descriptor opened for it, from offset zero, of the
    size the request asks for; every directory synced is the one that
    holds the path of the request. *)
Record sized (w : world) : Prop := Sized {
  sized_fallocate : ∀ fildes off size,
    SysPosixFallocate fildes off size ∈ trace w →
    stage w = Created ∧ off = 0 ∧ fildes = fd (file w) ∧
    ∃ req, create_req w = Some req ∧ c_size req = size;
  sized_sync_dir : ∀ d, OsSyncDir d ∈ trace w →
    stage w = Created ∧
    ∃ req, create_req w = Some req ∧ d = Dirname (c_path req)
}.

Ltac sized_old S1 S2 H :=
  first [ apply S1 in H as (? & ? & ? & ? & ? & ?)
        | apply S2 in H as (? & ? & ? & ?) ];
  simpl in *;
  first [ congruence
        | split_goal; first [ done | congruence | by eauto | idtac ] ].

Ltac sized_finish S1 S2 :=
  let H := fresh "Hin" in
  intros; 
  match goal with
  | H : _ ∈ _ |- _ =>
      simpl in H;
      rewrite ?elem_of_app, ?elem_of_cons, ?elem_of_nil in H;
      repeat match type of H with
             | _ ∨ _ => destruct H as [H|H]
             end;
      first [ done | discriminate H | sized_old S1 S2 H | idtac ]
  end;
  try (simplify_eq/=; repeat split; try done;
       eexists; (split; [first [reflexivity|eassumption]|]); simpl;
       congruence).

Ltac sized_split S :=
  let S1 := fresh "S1" in
  let S2 := fresh "S2" in
  destruct S as [S1 S2]; (split; simpl); sized_finish S1 S2.

Ltac sized_case Hi S Hs :=
  step_exec Hs; unfold_code; revert Hi S;
  mexec; prop_bools; intros Hi S; destruct_inv Hi; chain; use_stage;
  sized_split S.

Lemma sized_init cfg w w' d a e :
  inv w → sized w → step cfg w (CallInit d a e) = Some w' → sized w'.
Proof. intros Hi S Hs. sized_case Hi S Hs. Qed.

Lemma sized_create cfg w w' p sz m cb e :
  inv w → sized w → step cfg w (CallCreate p sz m cb e) = Some w' → sized w'.
Proof. intros Hi S Hs. sized_case Hi S Hs. Qed.

Lemma sized_close cfg w w' cb rc :
  inv w → sized w → step cfg w (CallClose cb rc) = Some w' → sized w'.
Proof. intros Hi S Hs. sized_case Hi S Hs. Qed.

Lemma sized_work_create cfg w w' e :
  inv w → sized w → step cfg w (WorkCreate e) = Some w' → sized w'.
Proof. intros Hi S Hs. sized_case Hi S Hs. Qed.

Lemma sized_after_create cfg w w' rp :
  inv w → sized w → step cfg w (AfterCreate rp) = Some w' → sized w'.
Proof. intros Hi S Hs. sized_case Hi S Hs. Qed.

Lemma sized_work_write cfg w w' r e :
  inv w → sized w → step cfg w (WorkWrite r e) = Some w' → sized w'.
Proof. intros Hi S Hs. sized_case Hi S Hs. Qed.

Lemma sized_after_write cfg w w' r :
  inv w → sized w → step cfg w (AfterWrite r) = Some w' → sized w'.
Proof. intros Hi S Hs. sized_case Hi S Hs. Qed.

Lemma sized_poller_closed cfg w w' rc rd :
  inv w → sized w → step cfg w (PollerClosed rc rd) = Some w' → sized w'.
Proof. intros Hi S Hs. sized_case Hi S Hs. Qed.

Lemma sized_write cfg w w' r bufs n off cb e :
  inv w → sized w → step cfg w (CallWrite r bufs n off cb e) = Some w' →
  sized w'.
Proof. intros Hi S Hs. sized_case Hi S Hs. Qed.

Lemma event_sized cfg ev qw w b w' :
  sized w → writePollCb_event cfg ev qw w = Some (b, w') → sized w'.
Proof.
  intros S Hs. unfold writePollCb_event in Hs. revert S.
  mexec; prop_bools; intros S; sized_split S.
Qed.

Lemma events_sized cfg evs qw w b w' :
  sized w → writePollCb_events cfg evs qw w = Some (b, w') → sized w'.
Proof.
  revert w b w'. induction evs as [|ev evs IH]; simpl; intros w b w' S Hs.
  - by mexec.
  - apply bind_Some in Hs as (returned & w1 & Hev & Hs).
    apply event_sized in Hev; [|done]. destruct returned.
    + by mexec.
    + by eapply IH.
Qed.

Lemma sized_poll cfg w w' e :
  inv w → sized w → step cfg w (Poll e) = Some w' → sized w'.
Proof.
  intros Hi S Hs. step_exec Hs. unfold writePollCb in Hs. clear Hen Hi.
  revert S.
  mexec; prop_bools; intros S.
  1: by sized_split S.
  all: match goal with
       | H : writePollCb_events _ _ _ _ = Some _ |- _ =>
           apply events_sized in H;
           [clear S; rename H into S|sized_split S]
       end.
  all: try assumption.
  all: sized_split S.
Qed.

Lemma step_sized cfg w l w' :
  inv w → sized w → step cfg w l = Some w' → sized w'.
Proof.
  destruct l.
  - apply sized_init.
  - apply sized_create.
  - apply sized_write.
  - apply sized_close.
  - apply sized_work_create.
  - apply sized_after_create.
  - apply sized_work_write.
  - apply sized_after_write.
  - apply sized_poll.
  - apply sized_poller_closed.
Qed.

Lemma run_sized cfg ls w w' :
  inv w → sized w → run cfg w ls = Some w' → sized w'.
Proof.
  revert w. induction ls as [|l ls IH]; simpl; intros w Hi S Hr.
  - by injection Hr as <-.
  - destruct (step cfg w l) as [w1|] eqn:Hs; [|done].
    eapply IH; [by eapply step_inv|by eapply step_sized|done].
Qed.

Lemma reachable_sized cfg w : reachable cfg w → sized w.
Proof.
  intros (f0 & ls & Hr).
  eapply run_sized; [apply boot_inv| |done].
  split; simpl.
  - by intros ? ? ? ?%elem_of_nil.
  - by intros ? ?%elem_of_nil.
Qed.

(** A direct, asynchronous handle that is created and then written to
    once. *)
Definition first_write_sample : list label :=
  opened true true 2 ++
  [ CallWrite 1%nat [Buf 4096 512] 1 0 10%nat submit_ok ].

Definition first_write_world : world :=
  default (boot blank) (run linux (boot blank) first_write_sample).

Lemma first_write_world_reachable : reachable linux first_write_world.
Proof. exists blank, first_write_sample. by vm_compute. Qed.

(** C5: in every run, whatever precedes a successful create callback or
    a write handed to the kernel contains, one right after the other,
    the posix_fallocate of the created descriptor from offset zero to the
    size of the create request, the fsync of that descriptor and the sync
    of the directory of the path of the request. *)
Theorem C5_create_preallocates_then_syncs cfg w pre e post :
  reachable cfg w → trace w = pre ++ e :: post → needs_file e →
  ∃ req t t', create_req w = Some req ∧
    pre = t ++ [ SysPosixFallocate (fd (file w)) 0 (c_size req);
                 SysFsync (fd (file w));
                 OsSyncDir (Dirname (c_path req)) ] ++ t'.
Proof.
  intros Hr Ht He.
  destruct (reachable_tinv _ _ Hr) as [T1 _ _ _ _ _].
  destruct (reachable_sized _ _ Hr) as [S1 S2].
  destruct (T1 _ _ _ Ht He) as (t & fildes & size & path & t' & ->).
  destruct (S1 fildes 0 size) as (_ & _ & -> & req & Hreq & <-).
  { rewrite Ht, !elem_of_app. left. right. left. apply list_elem_of_here. }
  destruct (S2 (Dirname path)) as (_ & req' & Hreq' & Hp).
  { rewrite Ht, !elem_of_app. left. right. left.
    do 2 apply list_elem_of_further. apply list_elem_of_here. }
  assert (req' = req) as -> by congruence.
  exists req, t, t'. split; [done|]. unfold create_seq. by rewrite Hp.
Qed.

Lemma C5_create_preallocates_then_syncs_witness :
  ∃ req t t', create_req first_write_world = Some req ∧
    take 12 (trace first_write_world) =
    t ++ [ SysPosixFallocate (fd (file first_write_world)) 0 (c_size req);
           SysFsync (fd (file first_write_world));
           OsSyncDir (Dirname (c_path req)) ] ++ t'.
Proof.
  apply (C5_create_preallocates_then_syncs linux first_write_world
           (take 12 (trace first_write_world)) (CreateCb 0 0)
           (drop 13 (trace first_write_world))).
  - exact first_write_world_reachable.
  - by vm_compute.
  - left. by exists 0%nat.
Defined.

(** ** Direct I/O and durable writes *)

(** A buffer whose address and length are multiples of the block size. *)
Definition aligned (blk : Z) (buf : uv_buf_t) : Prop :=
  (blk | base buf) ∧ (blk | len buf).

(** The reading of the specification: a ready direct handle has had its
    descriptor switched to direct I/O and every buffer it handed to the
    kernel is aligned to some block size; any other ready handle was
    opened with O_DSYNC or marks every submission with RWF_DSYNC. *)
Definition direct_or_dsync (cfg : build) : Prop :=
  ∀ w, reachable cfg w → stage w = Created → state (file w) = READY →
    (direct (file w) = true →
       OsSetDirectIO (fd (file w)) ∈ trace w ∧
       ∃ blk, 1 < blk ∧
         ∀ c b buf, SysIoSubmit c b ∈ trace w → buf ∈ aio_buf b →
                    aligned blk buf) ∧
    (direct (file w) = false →
       (∀ p flags, SysOpen p flags ∈ trace w →
                   Z.land flags O_DSYNC = O_DSYNC) ∨
       (∀ c b, SysIoSubmit c b ∈ trace w → dsync_flag b)).

(** A direct handle asked to write three bytes from address 1. *)
Definition unaligned_sample : list label :=
  opened true true 2 ++
  [ CallWrite 1%nat [Buf 1 3] 1 0 10%nat submit_ok ].

Definition unaligned_world : world :=
  default (boot blank) (run linux (boot blank) unaligned_sample).

Lemma unaligned_world_reachable : reachable linux unaligned_world.
Proof. exists blank, unaligned_sample. by vm_compute. Qed.

Lemma aio_buf_clear_nowait b : aio_buf (clear_nowait b) = aio_buf b.
Proof. done. Qed.

Lemma aio_buf_prepare_iocb cfg f r bufs n off :
  aio_buf (prepare_iocb cfg f r bufs n off) = bufs.
Proof.
  unfold prepare_iocb.
  by destruct (has_RWF_HIPRI cfg), (has_RWF_DSYNC cfg),
       (has_RWF_NOWAIT cfg && async f).
Qed.

Lemma uvFileWrite_bufs cfg r bufs n off cb e w rv w' :
  uvFileWrite cfg r bufs n off cb e w = Some (rv, w') →
  ∃ new, trace w' = trace w ++ new ∧
    ∀ c b, SysIoSubmit c b ∈ new → aio_buf b = bufs.
Proof.
  intros Hs. unfold uvFileWrite in Hs. unfold_code. mexec.
  all: rewrite <- ?app_assoc; simpl; eexists; (split; [reflexivity|]).
  all: intros c b Hin; rewrite ?elem_of_cons, ?elem_of_nil in Hin.
  all: repeat match type of Hin with
              | _ ∨ _ => destruct Hin as [Hin|Hin]
              end; try done.
  all: injection Hin as -> ->; apply aio_buf_prepare_iocb.
Qed.

(** C6, as stated, fails: uvFileWrite hands the caller's buffers to the
    kernel as they are, aligned or not, also on a direct handle. *)
Lemma C6_counterexample : ¬ direct_or_dsync linux.
Proof.
  intros H.
  destruct (H unaligned_world) as [Hd _];
    [exact unaligned_world_reachable|by vm_compute|by vm_compute|].
  destruct Hd as (_ & blk & Hblk & Hal); [by vm_compute|].
  destruct (Hal 77 (Iocb 1 11 8 0 8 [Buf 1 3] 1 0 1 7) (Buf 1 3))
    as [Hbase _].
  - vm_compute. do 13 apply list_elem_of_further. apply list_elem_of_here.
  - simpl. apply list_elem_of_here.
  - simpl in Hbase. apply Z.divide_1_r_nonneg in Hbase; lia.
Qed.

(** C6, amended: in every run, a ready direct handle has had its
    descriptor switched to direct I/O; a build with RWF_DSYNC sets that
    flag on every control block handed to io_submit, and a build without
    it opens every file with O_DSYNC; and uvFileWrite hands the buffers of
    its caller to the kernel unchanged, so their alignment is the
    caller's. *)
Theorem C6_direct_and_dsync cfg w :
  reachable cfg w →
  (stage w = Created → state (file w) = READY → direct (file w) = true →
     OsSetDirectIO (fd (file w)) ∈ trace w) ∧
  (has_RWF_DSYNC cfg = true →
     ∀ c b, SysIoSubmit c b ∈ trace w → dsync_flag b) ∧
  (has_RWF_DSYNC cfg = false →
     ∀ p flags, SysOpen p flags ∈ trace w →
                Z.land flags O_DSYNC = O_DSYNC) ∧
  (∀ r bufs n off cb e rv w',
     uvFileWrite cfg r bufs n off cb e w = Some (rv, w') →
     ∃ new, trace w' = trace w ++ new ∧
       ∀ c b, SysIoSubmit c b ∈ new → aio_buf b = bufs).
Proof.
  intros Hr. destruct (reachable_tinv _ _ Hr) as [_ T2 _ _ D2 D3].
  repeat split; [|done|done|].
  - intros Hst Hready Hd. by destruct (T2 Hst Hready) as [_ Hdirect]; auto.
  - intros. by eapply uvFileWrite_bufs.
Qed.

Lemma C6_direct_and_dsync_witness :
  (stage first_write_world = Created →
   state (file first_write_world) = READY →
   direct (file first_write_world) = true →
     OsSetDirectIO (fd (file first_write_world))
       ∈ trace first_write_world) ∧
  (has_RWF_DSYNC linux = true →
     ∀ c b, SysIoSubmit c b ∈ trace first_write_world → dsync_flag b) ∧
  (has_RWF_DSYNC linux = false →
     ∀ p flags, SysOpen p flags ∈ trace first_write_world →
                Z.land flags O_DSYNC = O_DSYNC) ∧
  (∀ r bufs n off cb e rv w',
     uvFileWrite linux r bufs n off cb e first_write_world
       = Some (rv, w') →
     ∃ new, trace w' = trace first_write_world ++ new ∧
       ∀ c b, SysIoSubmit c b ∈ new → aio_buf b = bufs).
Proof.
  apply (C6_direct_and_dsync linux first_write_world).
  exact first_write_world_reachable.
Defined.

(** * The leader a node knows of *)

Module Raft.

(** The values of [r->state]. *)
Inductive raft_state_code :=
| RAFT_UNAVAILABLE
| RAFT_FOLLOWER
| RAFT_CANDIDATE
| RAFT_LEADER.

(** [follower_state.current_leader]; a missing address is NULL. *)
Record leader_ref := LeaderRef {
  leader_id : Z;
  leader_address : option string
}.

(** The fields of [struct raft] that [raft_leader] reads. *)
Record raft := MkRaft {
  id : Z;
  address : option string;
  state : raft_state_code;
  current_leader : leader_ref
}.

Definition raft_state (r : raft) : raft_state_code := state r.

(** [raft_leader]: the two results are what the function stores through
    [id] and [address]. *)
Definition raft_leader (r : raft) : Z * option string :=
  match state r with
  | RAFT_UNAVAILABLE | RAFT_CANDIDATE => (0, None)
  | RAFT_FOLLOWER =>
      (leader_id (current_leader r), leader_address (current_leader r))
  | RAFT_LEADER => (id r, address r)
  end.

(** A node reports a leader when the id it stores is not zero. *)
Definition reports_leader (r : raft) : Prop := (raft_leader r).1 ≠ 0.

End Raft.

(** C10: raft_leader stores the node's own id and address when the node
    is the leader, the id and address of the leader it follows when it is
    a follower, and id 0 with a NULL address when it is a candidate or
    unavailable, in which two states it reports no leader. *)
Theorem C10_raft_leader_by_state (i : Z) (a : option string)
    (l : Raft.leader_ref) :
  Raft.raft_leader (Raft.MkRaft i a Raft.RAFT_LEADER l) = (i, a) ∧
  Raft.raft_leader (Raft.MkRaft i a Raft.RAFT_FOLLOWER l)
    = (Raft.leader_id l, Raft.leader_address l) ∧
  Raft.raft_leader (Raft.MkRaft i a Raft.RAFT_CANDIDATE l) = (0, None) ∧
  Raft.raft_leader (Raft.MkRaft i a Raft.RAFT_UNAVAILABLE l) = (0, None) ∧
  ¬ Raft.reports_leader (Raft.MkRaft i a Raft.RAFT_CANDIDATE l) ∧
  ¬ Raft.reports_leader (Raft.MkRaft i a Raft.RAFT_UNAVAILABLE l).
Proof.
  repeat split; intros H; by apply H.
Qed.

(** * Adding a server to the configuration *)

Module Membership.

(** Modelled from the spec: the role of a server in a configuration,
    one of voter, non-voter and spare. *)
Inductive role := voter | non_voter | spare.

(** Modelled from the spec: a server of a configuration, with its
    nonzero id, its address and its role. *)
Record raft_server := Server {
  server_id : Z;
  server_address : string;
  server_role : role
}.

(** Modelled from the spec: a configuration is an ordered set of
    servers. *)
Definition raft_configuration := list raft_server.

(** Modelled from the spec: a log entry is a command, a configuration,
    which carries the server set, or a barrier. *)
Inductive entry :=
| EntryCommand
| EntryConfiguration (c : raft_configuration)
| EntryBarrier.

(** Modelled from the spec: what the model keeps of a node, its id, its
    log and the index of the last entry it applied. *)
Record node := Node {
  node_id : Z;
  log : list entry;
  last_applied : nat
}.

#[global] Instance role_eq_dec : EqDecision role.
Proof. solve_decision. Defined.

(** Modelled from the spec: a configuration entry takes effect when it
    is appended, so the configuration in force is the one of the last
    configuration entry of the log; [rl] is the log, last entry first. *)
Fixpoint last_configuration (rl : list entry) : raft_configuration :=
  match rl with
  | [] => []
  | EntryConfiguration c :: _ => c
  | _ :: rl' => last_configuration rl'
  end.

Definition configuration (x : node) : raft_configuration :=
  last_configuration (reverse (log x)).

(** Modelled from the spec: adding a server keeps the ids nonzero and
    unique, and puts the new server after the others. *)
Definition configurationAdd (c : raft_configuration) (id : Z)
    (address : string) (r : role) : option raft_configuration :=
  if decide (id = 0) then None
  else if decide (id ∈ map server_id c) then None
  else Some (c ++ [Server id address r]).

(** Modelled from the spec: the index of the last configuration entry
    of a log, 0 when there is none; [rl] is the log, last entry first,
    and the first entry of a log has index 1. *)
Fixpoint last_configuration_index (rl : list entry) : nat :=
  match rl with
  | [] => 0
  | EntryConfiguration _ :: rl' => S (length rl')
  | _ :: rl' => last_configuration_index rl'
  end.

(** Modelled from the spec: add-server on the leader appends a
    configuration entry in which the new server is a non-voter; it is
    refused while a configuration entry is not yet applied. *)
Definition raft_add (leader : node) (id : Z) (address : string)
    : option node :=
  if decide (last_applied leader
               < last_configuration_index (reverse (log leader)))%nat
  then None
  else
    match configurationAdd (configuration leader) id address non_voter with
    | Some c =>
        Some (Node (node_id leader) (log leader ++ [EntryConfiguration c])
                (last_applied leader))
    | None => None
    end.

(** Modelled from the spec: a follower that has received the log of the
    leader. *)
Definition replicate (leader follower : node) : node :=
  Node (node_id follower) (log leader) (last_applied follower).

(** Modelled from the spec: a node that has applied every entry of its
    log. *)
Definition apply_all (x : node) : node :=
  Node (node_id x) (log x) (length (log x)).

(** Modelled from the spec: the configuration a cluster of [n] voters is
    bootstrapped with, ids 1 to [n]. *)
Definition bootstrap_configuration (n : nat) : raft_configuration :=
  map (λ k, Server (Z.of_nat (S k)) "" voter) (seq 0 n).

(** Modelled from the spec: node [i] of a stable cluster of [n] voters,
    which has applied the bootstrap entry, at index 1. *)
Definition bootstrap_node (n : nat) (i : Z) : node :=
  Node i [EntryConfiguration (bootstrap_configuration n)] 1.

Lemma bootstrap_configuration_length n :
  length (bootstrap_configuration n) = n.
Proof. unfold bootstrap_configuration. by rewrite length_map, length_seq. Qed.

Lemma bootstrap_configuration_ids n id :
  id ∈ map server_id (bootstrap_configuration n) →
  1 ≤ id ≤ Z.of_nat n.
Proof.
  unfold bootstrap_configuration. rewrite map_map. simpl.
  intros (k & -> & Hk%elem_of_seq)%list_elem_of_fmap. lia.
Qed.

Lemma raft_add_bootstrap n i address :
  raft_add (bootstrap_node n i) (Z.of_nat n + 1) address =
  Some (Node i [ EntryConfiguration (bootstrap_configuration n);
                 EntryConfiguration
                   (bootstrap_configuration n ++
                    [Server (Z.of_nat n + 1) address non_voter]) ] 1).
Proof.
  unfold raft_add, configurationAdd. simpl.
  change (configuration (bootstrap_node n i))
    with (bootstrap_configuration n).
  rewrite (decide_False (P := Z.of_nat n + 1 = 0)) by lia.
  rewrite decide_False; [done|].
  intros H%bootstrap_configuration_ids. lia.
Qed.

End Membership.

(** C9: in a stable cluster of [n] voters, add-server with the next id
    is accepted by the leader; once the entry is applied, the leader and
    every voter that received it have advanced their applied index by
    one, and the configuration of the leader has [n + 1] servers, the
    last of which has the new id and the non-voter role. *)
Theorem C9_add_non_voter (n : nat) (i : Z) (address : string) :
  ∃ leader,
    Membership.raft_add (Membership.bootstrap_node n i) (Z.of_nat n + 1)
      address = Some leader ∧
    length (Membership.configuration leader) = S n ∧
    Membership.configuration leader !! n
      = Some (Membership.Server (Z.of_nat n + 1) address
                Membership.non_voter) ∧
    last (Membership.configuration leader)
      = Some (Membership.Server (Z.of_nat n + 1) address
                Membership.non_voter) ∧
    Membership.last_applied (Membership.apply_all leader)
      = S (Membership.last_applied (Membership.bootstrap_node n i)) ∧
    ∀ j, let follower := Membership.apply_all
                           (Membership.replicate leader
                              (Membership.bootstrap_node n j)) in
         Membership.last_applied follower
           = S (Membership.last_applied (Membership.bootstrap_node n j)) ∧
         Membership.configuration follower
           = Membership.configuration leader.
Proof.
  eexists. split; [apply Membership.raft_add_bootstrap|].
  unfold Membership.configuration. simpl.
  pose proof (Membership.bootstrap_configuration_length n) as Hn.
  repeat split.
  - rewrite length_app, Hn. simpl. lia.
  - by apply list_lookup_middle.
  - by rewrite last_snoc.
Qed.

(** * Further properties of the functions of uv_file.c *)

(** ** [uvFileInit] *)

Definition inited_world : world :=
  default (boot blank) (snd <$> uvFileInit true true init_ok (boot blank)).

(** [uvFileInit] returns 0 exactly when both eventfd and uv_poll_init
    succeed.  It then leaves a handle with no descriptor, no AIO
    context, an empty queue and no close request.  When uv_poll_init
    fails the eventfd just created is closed again.  In no case is the
    state field of the handle written. *)
Theorem uvFileInit_outcome d a e w rv w' :
  uvFileInit d a e w = Some (rv, w') →
  (rv = 0 ↔ 0 ≤ i_eventfd e ∧ i_poll_init e = 0) ∧
  state (file w') = state (file w) ∧
  (rv = 0 →
     file w' = File (state (file w)) (-1) d a (i_eventfd e) HInit 0 0 []
                 false None ∧
     trace w' = trace w ++ [SysEventfd; UvPollInit]) ∧
  (rv ≠ 0 → 0 ≤ i_eventfd e →
     rv = i_poll_init e ∧
     trace w' = trace w ++ [SysEventfd; UvPollInit;
                            SysClose (i_eventfd e)]) ∧
  (i_eventfd e < 0 →
     rv = uv_translate_sys_error (i_errno e) ∧
     trace w' = trace w ++ [SysEventfd]).
Proof.
  intros Hs. unfold uvFileInit in Hs. destruct w as [f cr ws qd rn k t sg].
  destruct f. mexec; prop_bools.
  all: repeat match goal with
       | H : (_ <? _) = true |- _ => apply Z.ltb_lt in H
       | H : (_ <? _) = false |- _ => apply Z.ltb_ge in H
       end.
  all: rewrite <- ?app_assoc; simpl.
  all: repeat split; try done; try lia; intros; try lia.
  all: try (split_hyps; lia).
Qed.

Lemma uvFileInit_outcome_witness :
  (0 = 0 ↔ 0 ≤ i_eventfd init_ok ∧ i_poll_init init_ok = 0) ∧
  state (file inited_world) = state (file (boot blank)) ∧
  (0 = 0 →
     file inited_world
       = File (state (file (boot blank))) (-1) true true
           (i_eventfd init_ok) HInit 0 0 [] false None ∧
     trace inited_world = trace (boot blank) ++ [SysEventfd; UvPollInit]) ∧
  (0 ≠ 0 → 0 ≤ i_eventfd init_ok →
     0 = i_poll_init init_ok ∧
     trace inited_world
       = trace (boot blank) ++ [SysEventfd; UvPollInit;
                                SysClose (i_eventfd init_ok)]) ∧
  (i_eventfd init_ok < 0 →
     0 = uv_translate_sys_error (i_errno init_ok) ∧
     trace inited_world = trace (boot blank) ++ [SysEventfd]).
Proof.
  apply (uvFileInit_outcome true true init_ok (boot blank) 0 inited_world).
  by vm_compute.
Defined.

(** ** [uvFileCreate] *)

Ltac ltb_props :=
  repeat match goal with
  | H : (_ <? _) = true |- _ => apply Z.ltb_lt in H
  | H : (_ <? _) = false |- _ => apply Z.ltb_ge in H
  | H : (_ <=? _) = true |- _ => apply Z.leb_le in H
  | H : (_ <=? _) = false |- _ => apply Z.leb_gt in H
  end.

Definition create_calloc_fails : create_env := CreateEnv 8 0 77 0 false 0.
Definition create_queue_fails : create_env := CreateEnv 8 0 77 0 true (-22).

Definition after_create (e : create_env) : world :=
  default (boot blank)
    (snd <$> uvFileCreate linux "open-1" 4096 2 (Some 0%nat) e
               inited_world).

(** [uvFileCreate] returns 0 exactly when open, io_setup, calloc and
    uv_queue_work all succeed; the handle is then CREATING with the new
    descriptor and context, and the create job waits in the thread pool.
    When it fails it returns a non-zero code, the state is 0, the
    descriptor field is -1, nothing was handed to the thread pool, and a
    file that had been opened is closed and unlinked as the last two
    calls. *)
Theorem uvFileCreate_outcome cfg path size m cb e w rv w' :
  uvFileCreate cfg path size m cb e w = Some (rv, w') →
  (rv = 0 ↔ ce_open e ≠ -1 ∧ ce_io_setup e ≠ -1 ∧
            ce_calloc_ok e = true ∧ ce_queue_work e = 0) ∧
  (rv = 0 →
     state (file w') = CREATING ∧ fd (file w') = ce_open e ∧
     ctx (file w') = ce_ctx e ∧ n_events (file w') = m ∧
     queued w' = queued w ++ [JCreate] ∧
     create_req w' = Some (CreateReq cb path size 0)) ∧
  (rv ≠ 0 →
     state (file w') = 0 ∧ fd (file w') = -1 ∧ queued w' = queued w ∧
     (ce_open e ≠ -1 →
        ∃ mid, trace w' = trace w ++ mid ++
                          [SysClose (ce_open e); SysUnlink path])).
Proof.
  intros Hs. unfold uvFileCreate in Hs. mexec; prop_bools; ltb_props.
  all: rewrite <- ?app_assoc; simpl.
  all: repeat split; try done; try lia; intros; split_hyps;
       try done; try lia; try congruence.
  all: try (destruct_and!; congruence).
  all: match goal with
       | |- ex (λ mid, ?t ++ ?L = _) =>
           exists (take (length L - 2) L); reflexivity
       end.
Qed.

Lemma uvFileCreate_outcome_witness :
  state (file (after_create create_calloc_fails)) = 0 ∧
  fd (file (after_create create_calloc_fails)) = -1 ∧
  queued (after_create create_calloc_fails) = queued inited_world ∧
  (ce_open create_calloc_fails ≠ -1 →
     ∃ mid, trace (after_create create_calloc_fails)
            = trace inited_world ++ mid ++
              [SysClose (ce_open create_calloc_fails);
               SysUnlink "open-1"]).
Proof.
  apply (uvFileCreate_outcome linux "open-1" 4096 2 (Some 0%nat)
           create_calloc_fails inited_world UV_ENOMEM
           (after_create create_calloc_fails)).
  - by vm_compute.
  - by vm_compute.
Defined.

(** The two late failures of [uvFileCreate] differ in what they
    release.  When calloc fails the AIO context that io_setup made is
    destroyed and the context field is reset to 0.  When uv_queue_work
    fails the function leaves through the label after it: io_destroy is
    not called and the context field keeps the context. *)
Theorem uvFileCreate_late_failure cfg path size m cb e w rv w' :
  uvFileCreate cfg path size m cb e w = Some (rv, w') →
  ce_open e ≠ -1 → ce_io_setup e ≠ -1 →
  (ce_calloc_ok e = false →
     rv = UV_ENOMEM ∧ ctx (file w') = 0 ∧
     SysIoDestroy (ce_ctx e) ∈ drop (length (trace w)) (trace w')) ∧
  (ce_calloc_ok e = true → ce_queue_work e ≠ 0 →
     rv = ce_queue_work e ∧ ctx (file w') = ce_ctx e ∧
     ∀ c, SysIoDestroy c ∉ drop (length (trace w)) (trace w')).
Proof.
  intros Hs Ho Hi. unfold uvFileCreate in Hs. mexec; prop_bools; ltb_props.
  all: rewrite <- ?app_assoc; simpl; try done.
  all: rewrite drop_app_length.
  all: split; [intros Hc|intros Hc Hq]; try congruence.
  all: repeat split; try done.
  all: try (rewrite !elem_of_cons; tauto).
  all: intros c Hin; rewrite !elem_of_cons, elem_of_nil in Hin.
  all: repeat match type of Hin with
              | _ ∨ _ => destruct Hin as [Hin|Hin]
              end; done.
Qed.

Lemma uvFileCreate_late_failure_witness :
  (ce_calloc_ok create_queue_fails = false →
     -22 = UV_ENOMEM ∧ ctx (file (after_create create_queue_fails)) = 0 ∧
     SysIoDestroy (ce_ctx create_queue_fails)
       ∈ drop (length (trace inited_world))
              (trace (after_create create_queue_fails))) ∧
  (ce_calloc_ok create_queue_fails = true →
   ce_queue_work create_queue_fails ≠ 0 →
     -22 = ce_queue_work create_queue_fails ∧
     ctx (file (after_create create_queue_fails))
       = ce_ctx create_queue_fails ∧
     ∀ c, SysIoDestroy c
            ∉ drop (length (trace inited_world))
                   (trace (after_create create_queue_fails))).
Proof.
  apply (uvFileCreate_late_failure linux "open-1" 4096 2 (Some 0%nat)
           create_queue_fails inited_world (-22)
           (after_create create_queue_fails)).
  - by vm_compute.
  - by vm_compute.
  - by vm_compute.
Defined.

(** ** The work callbacks *)

(** The blocking calls of a create that meets no error. *)
Definition create_calls (f : uvFile) (req : struct_uvFileCreate)
    : list effect :=
  create_seq (fd f) (c_size req) (c_path req) ++
  (if direct f then [OsSetDirectIO (fd f)] else []).

Definition fsync_fails : create_work_env := CreateWorkEnv 0 (-1) EIO 0 0.

Definition created_world : world :=
  default (boot blank)
    (run linux (boot blank)
       [ CallInit true true init_ok;
         CallCreate "open-1" 4096 2 (Some 0%nat) create_ok ]).

Definition after_create_work (e : create_work_env) : world :=
  default (boot blank) (snd <$> createWorkCb e created_world).

(** [createWorkCb] writes nothing but the status of the create request:
    the handle, the write requests and the thread pool are as before.
    It stops at the first call that fails: with status 0 all the calls
    of a create were made, in their order, and each returned success;
    with another status the calls made are a non-empty prefix of them.
    A failed fsync is taken to leave a non-zero errno. *)
Theorem createWorkCb_stops_at_first_failure e w w' req :
  createWorkCb e w = Some (tt, w') → create_req w = Some req →
  (cw_fsync e = -1 → cw_errno e ≠ 0) →
  file w' = file w ∧ writes w' = writes w ∧ queued w' = queued w ∧
  ∃ st k, create_req w' = Some (set_c_status st req) ∧
    (0 < k)%nat ∧
    trace w' = trace w ++ take k (create_calls (file w) req) ∧
    (st = 0 → (length (create_calls (file w) req) ≤ k)%nat ∧
              cw_posix_fallocate e = 0 ∧ cw_fsync e ≠ -1 ∧
              cw_osSyncDir e = 0 ∧
              (direct (file w) = true → cw_osSetDirectIO e = 0)) ∧
    (st ≠ 0 → (k ≤ length (create_calls (file w) req))%nat).
Proof.
  intros Hs Hreq Herrno. unfold createWorkCb in Hs.
  mexec; prop_bools. all: simplify_eq/=.
  all: repeat split; try done.
  all: rewrite <- ?app_assoc; unfold create_calls, create_seq; simpl.
  all: repeat match goal with
       | H : direct _ = _ |- _ => rewrite H
       end; simpl.
  1: exists (uv_translate_sys_error (cw_posix_fallocate e)), 1%nat.
  2: exists (uv_translate_sys_error (cw_errno e)), 2%nat.
  3: exists (uv_translate_sys_error (cw_osSyncDir e)), 3%nat.
  4: exists (uv_translate_sys_error (cw_osSetDirectIO e)), 4%nat.
  5: exists 0, 4%nat.
  6: exists 0, 3%nat.
  all: simpl; repeat split; try done; try lia.
  all: try by destruct (direct _).
  all: try match goal with
       | H : uv_translate_sys_error _ = 0 |- _ =>
           apply uv_translate_sys_error_0 in H
       end.
  all: try (exfalso; first [congruence | by apply Herrno]).
  all: try (intros; destruct (direct _); simpl; lia).
  all: try (intros; congruence).
Qed.

Lemma createWorkCb_stops_at_first_failure_witness :
  file (after_create_work fsync_fails) = file created_world ∧
  writes (after_create_work fsync_fails) = writes created_world ∧
  queued (after_create_work fsync_fails) = queued created_world ∧
  ∃ st k, create_req (after_create_work fsync_fails)
          = Some (set_c_status st (CreateReq (Some 0%nat) "open-1" 4096 0)) ∧
    (0 < k)%nat ∧
    trace (after_create_work fsync_fails)
      = trace created_world ++
        take k (create_calls (file created_world)
                  (CreateReq (Some 0%nat) "open-1" 4096 0)) ∧
    (st = 0 →
       (length (create_calls (file created_world)
                  (CreateReq (Some 0%nat) "open-1" 4096 0)) ≤ k)%nat ∧
       cw_posix_fallocate fsync_fails = 0 ∧ cw_fsync fsync_fails ≠ -1 ∧
       cw_osSyncDir fsync_fails = 0 ∧
       (direct (file created_world) = true →
        cw_osSetDirectIO fsync_fails = 0)) ∧
    (st ≠ 0 →
       (k ≤ length (create_calls (file created_world)
                      (CreateReq (Some 0%nat) "open-1" 4096 0)))%nat).
Proof.
  apply (createWorkCb_stops_at_first_failure fsync_fails created_world).
  - by vm_compute.
  - by vm_compute.
  - by vm_compute.
Defined.

(** ** [createAfterWorkCb] *)

(** The create callbacks in a trace, with the status they were given. *)
Definition create_cbs (t : list effect) : list (nat * Z) :=
  omap (λ e, match e with CreateCb cb st => Some (cb, st) | _ => None end) t.

Definition is_release (e : effect) : Prop :=
  match e with
  | SysClose _ | SysUnlink _ | SysIoDestroy _ => True
  | _ => False
  end.

Definition worker_failed_world : world :=
  default (boot blank)
    (run linux (boot blank)
       [ CallInit true true init_ok;
         CallCreate "open-1" 4096 2 (Some 0%nat) create_ok;
         WorkCreate fsync_fails ]).

Definition after_failed_create : world :=
  default (boot blank)
    (snd <$> createAfterWorkCb 0 0 worker_failed_world).

(** [createAfterWorkCb] reports the final status of the create request
    through the callback of the request, once if there is one; the
    state of the handle is READY exactly when that status is 0 and
    ERRORED otherwise.  The status is 0 exactly when close was not
    requested, the worker stored 0 and uv_poll_start succeeded; it is
    UV_ECANCELED when close was requested.  When the worker stored an
    error and close was not requested, that error is reported and
    nothing is released: the descriptor stays open and the file is not
    unlinked. *)
Theorem createAfterWorkCb_reports rp w w' req :
  createAfterWorkCb 0 rp w = Some (tt, w') → create_req w = Some req →
  ∃ st new,
    create_req w' = Some (set_c_status st req) ∧
    trace w' = trace w ++ new ∧
    create_cbs new = match c_cb req with
                     | Some cb => [(cb, st)]
                     | None => []
                     end ∧
    state (file w') = (if st =? 0 then READY else ERRORED) ∧
    (st = 0 ↔ closing (file w) = false ∧ c_status req = 0 ∧ rp = 0) ∧
    (closing (file w) = true → st = UV_ECANCELED) ∧
    (closing (file w) = false → c_status req ≠ 0 →
       st = c_status req ∧ ∀ e, e ∈ new → ¬ is_release e).
Proof.
  intros Hs Hreq. unfold createAfterWorkCb in Hs.
  destruct req as [rcb rpath rsize rstatus].
  mexec; prop_bools. all: simplify_eq/=.
  all: rewrite <- ?app_assoc; simpl.
  all: eexists;
       first [ eexists; split; [first [reflexivity | eassumption]|];
               split; [reflexivity|]
             | exists []; split; [first [reflexivity | eassumption]|];
               split; [by rewrite app_nil_r|] ].
  all: simpl.
  all: repeat match goal with
       | H : ?x = 0 |- _ => is_var x; subst x
       end; simpl.
  all: repeat split; try done; try lia; intros; try done; try lia.
  all: try (destruct_and!; congruence).
  all: try by vm_compute.
  all: try match goal with
       | |- context [?x =? 0] => by destruct (Z.eqb_spec x 0)
       end.
  all: try match goal with
       | H : _ ∈ _ |- _ =>
           rewrite ?elem_of_cons, ?elem_of_nil in H;
           repeat match type of H with
                  | _ ∨ _ => destruct H as [H|H]
                  end; try done; subst; simpl; tauto
       end.
Qed.

Lemma createAfterWorkCb_reports_witness :
  ∃ st new,
    create_req after_failed_create
      = Some (set_c_status st
                (CreateReq (Some 0%nat) "open-1" 4096 (- EIO))) ∧
    trace after_failed_create = trace worker_failed_world ++ new ∧
    create_cbs new = [(0%nat, st)] ∧
    state (file after_failed_create)
      = (if st =? 0 then READY else ERRORED) ∧
    (st = 0 ↔ closing (file worker_failed_world) = false ∧
              - EIO = 0 ∧ 0 = 0) ∧
    (closing (file worker_failed_world) = true → st = UV_ECANCELED) ∧
    (closing (file worker_failed_world) = false → - EIO ≠ 0 →
       st = - EIO ∧ ∀ e, e ∈ new → ¬ is_release e).
Proof.
  apply (createAfterWorkCb_reports 0 worker_failed_world
           after_failed_create
           (CreateReq (Some 0%nat) "open-1" 4096 (- EIO))).
  - by vm_compute.
  - by vm_compute.
Defined.

(** ** [writeWorkCb] *)

Definition pooled_world : world :=
  default (boot blank)
    (run linux (boot blank)
       (opened false false 2 ++
        [ CallWrite 1%nat [Buf 4096 512] 1 0 10%nat submit_ok ])).

Definition after_write_work (e : write_work_env) : world :=
  default (boot blank) (snd <$> writeWorkCb 1%nat e pooled_world).

(** [writeWorkCb] writes nothing but the status of its request.  On a
    handle with room for more than one write it works on a context of
    its own: when io_setup fails nothing is submitted, and otherwise the
    request is submitted on the new context, which is destroyed as the
    last call on every path.  On a handle with room for one write the
    request is submitted on the context of the handle, and no context is
    set up or destroyed.  The status stored is the result of the
    completion event or the translated errno. *)
Theorem writeWorkCb_dedicated_context r e w w' req :
  writeWorkCb r e w = Some (tt, w') → writes w !! r = Some req →
  ∃ st new,
    file w' = file w ∧ create_req w' = create_req w ∧
    writes w' = <[r := set_w_status st req]> (writes w) ∧
    trace w' = trace w ++ new ∧
    (st = ww_res e ∨ st = uv_translate_sys_error (ww_errno e)) ∧
    (1 < n_events (file w) → ww_io_setup e = -1 →
       new = [SysIoSetup 1] ∧ st = uv_translate_sys_error (ww_errno e)) ∧
    (1 < n_events (file w) → ww_io_setup e ≠ -1 →
       head new = Some (SysIoSetup 1) ∧
       SysIoSubmit (ww_ctx e) (w_iocb req) ∈ new ∧
       last new = Some (SysIoDestroy (ww_ctx e))) ∧
    (n_events (file w) ≤ 1 →
       SysIoSubmit (ctx (file w)) (w_iocb req) ∈ new ∧
       ∀ c, (SysIoSetup c ∉ new) ∧ (SysIoDestroy c ∉ new)).
Proof.
  intros Hs Hreq. unfold writeWorkCb in Hs.
  mexec; prop_bools; ltb_props. all: simplify_eq/=.
  all: rewrite <- ?app_assoc; simpl.
  all: eexists _, _; (split; [done|]); (split; [done|]);
       (split; [reflexivity|]); (split; [reflexivity|]).
  all: (split; [tauto|]).
  all: repeat split; try done; try lia; intros; try done; try lia.
  all: try (rewrite !elem_of_cons; tauto).
  all: try match goal with
       | H : _ ∈ _ |- _ =>
           rewrite ?elem_of_cons, ?elem_of_nil in H;
           repeat match type of H with
                  | _ ∨ _ => destruct H as [H|H]
                  end; done
       end.
  all: intros Hin; rewrite ?elem_of_cons, ?elem_of_nil in Hin.
  all: repeat match type of Hin with
              | _ ∨ _ => destruct Hin as [Hin|Hin]
              end; done.
Qed.

Lemma writeWorkCb_dedicated_context_witness :
  ∃ st new,
    file (after_write_work (work_ok 512)) = file pooled_world ∧
    create_req (after_write_work (work_ok 512)) = create_req pooled_world ∧
    writes (after_write_work (work_ok 512))
      = <[1%nat := set_w_status st
                     (default (WriteReq 0 0 (Iocb 0 0 0 0 0 [] 0 0 0 0))
                        (writes pooled_world !! 1%nat))]>
          (writes pooled_world) ∧
    trace (after_write_work (work_ok 512)) = trace pooled_world ++ new ∧
    (st = ww_res (work_ok 512)
     ∨ st = uv_translate_sys_error (ww_errno (work_ok 512))) ∧
    (1 < n_events (file pooled_world) → ww_io_setup (work_ok 512) = -1 →
       new = [SysIoSetup 1] ∧
       st = uv_translate_sys_error (ww_errno (work_ok 512))) ∧
    (1 < n_events (file pooled_world) → ww_io_setup (work_ok 512) ≠ -1 →
       head new = Some (SysIoSetup 1) ∧
       SysIoSubmit (ww_ctx (work_ok 512))
         (w_iocb (default (WriteReq 0 0 (Iocb 0 0 0 0 0 [] 0 0 0 0))
                    (writes pooled_world !! 1%nat))) ∈ new ∧
       last new = Some (SysIoDestroy (ww_ctx (work_ok 512)))) ∧
    (n_events (file pooled_world) ≤ 1 →
       SysIoSubmit (ctx (file pooled_world))
         (w_iocb (default (WriteReq 0 0 (Iocb 0 0 0 0 0 [] 0 0 0 0))
                    (writes pooled_world !! 1%nat))) ∈ new ∧
       ∀ c, (SysIoSetup c ∉ new) ∧ (SysIoDestroy c ∉ new)).
Proof.
  apply (writeWorkCb_dedicated_context 1%nat (work_ok 512) pooled_world).
  - by vm_compute.
  - by vm_compute.
Defined.

(** ** [uvFileWrite] *)






(** ** The control block of a request that falls back to the pool *)

Lemma land_lnot_pow2_bits x k i :
  0 ≤ k → 0 ≤ i →
  Z.testbit (Z.land x (Z.lnot (2 ^ k))) i
  = if decide (i = k) then false else Z.testbit x i.
Proof.
  intros Hk Hi. rewrite Z.land_spec, Z.lnot_spec, Z.pow2_bits_eqb by done.
  destruct (decide (i = k)) as [->|Hne].
  - rewrite Z.eqb_refl. simpl. apply andb_false_r.
  - replace (k =? i) with false by (symmetry; apply Z.eqb_neq; lia).
    simpl. apply andb_true_r.
Qed.

(** Clearing the no-wait and eventfd flags of a control block changes
    nothing else: the request, the opcode, the descriptor, the buffers,
    the count and the offset are the same, every other bit of the two
    flag words is kept, and clearing twice is clearing once. *)
Theorem clear_nowait_keeps_rest (b : iocb) :
  aio_data (clear_nowait b) = aio_data b ∧
  aio_lio_opcode (clear_nowait b) = aio_lio_opcode b ∧
  aio_reqprio (clear_nowait b) = aio_reqprio b ∧
  aio_fildes (clear_nowait b) = aio_fildes b ∧
  aio_buf (clear_nowait b) = aio_buf b ∧
  aio_nbytes (clear_nowait b) = aio_nbytes b ∧
  aio_offset (clear_nowait b) = aio_offset b ∧
  aio_resfd (clear_nowait b) = 0 ∧
  (∀ i, 0 ≤ i →
     Z.testbit (aio_rw_flags (clear_nowait b)) i
     = if decide (i = 3) then false else Z.testbit (aio_rw_flags b) i) ∧
  (∀ i, 0 ≤ i →
     Z.testbit (aio_flags (clear_nowait b)) i
     = if decide (i = 0) then false else Z.testbit (aio_flags b) i) ∧
  clear_nowait (clear_nowait b) = clear_nowait b.
Proof.
  unfold clear_nowait. destruct b; simpl. repeat split.
  - intros i Hi. change RWF_NOWAIT with (2 ^ 3).
    by apply land_lnot_pow2_bits.
  - intros i Hi. change IOCB_FLAG_RESFD with (2 ^ 0).
    by apply land_lnot_pow2_bits.
  - unfold set_aio_rw_flags, set_aio_resfd, set_aio_flags. simpl.
    f_equal; by rewrite <- Z.land_assoc, Z.land_diag.
Qed.

(** * Further properties of the handle in its environment *)

(** ** Where a request in flight is *)




(** ** Closing a handle with nothing in flight *)

(** On a handle that is initialised, not being created, with an empty
    queue and on which close was not requested, [uvFileClose] followed by
    the close callback of the poller runs to the end: the descriptor is
    closed if there is one, uv_close is called, the eventfd is closed,
    the AIO context is destroyed if there is one, the events are freed
    and the close callback fires; the handle is CLOSED. *)
Theorem idle_close_completes cfg w cb :
  stage w ≠ Fresh → closing (file w) = false →
  state (file w) ≠ CREATING → state (file w) ≠ CLOSED →
  write_queue (file w) = [] →
  uv_is_closing (event_poller (file w)) = false →
  ∃ w', run cfg w [CallClose (Some cb) 0; PollerClosed 0 0] = Some w' ∧
    state (file w') = CLOSED ∧
    trace w' = trace w ++
      (if decide (fd (file w) = -1) then [] else [SysClose (fd (file w))]) ++
      [UvClose; SysClose (event_fd (file w))] ++
      (if decide (ctx (file w) = 0) then []
       else [SysIoDestroy (ctx (file w))]) ++
      [SysFree; CloseCb cb].
Proof.
  intros Hst Hc Hcr Hcl Hq Hp.
  destruct w as [f cr ws qd rn k t sg].
  destruct f as [st0 fd0 dr0 as0 efd0 ep0 ctx0 ne0 wq0 cl0 ccb0].
  simpl in *. subst.
  apply Z.eqb_neq in Hcr, Hcl. unfold CLOSED, CREATING in *.
  unfold run, step, enabled. simpl.
  rewrite bool_decide_eq_true_2 by done.
  unfold handle, uvFileClose, maybeClosed, pollCloseCb, uv_close.
  unfold_M.
  destruct (decide (fd0 = -1)) as [->|Hfd];
    [|apply Z.eqb_neq in Hfd];
    (destruct (decide (ctx0 = 0)) as [->|Hctx];
       [|apply Z.eqb_neq in Hctx]).
  all: repeat progress
         (simpl; unfold CLOSED, CREATING;
          rewrite ?Hcl, ?Hcr, ?Hp, ?Hfd, ?Hctx).
  all: eexists; (split; [reflexivity|]); simpl.
  all: by rewrite <- !app_assoc.
Qed.

Lemma idle_close_completes_witness :
  ∃ w', run linux ready_world [CallClose (Some 5%nat) 0; PollerClosed 0 0]
        = Some w' ∧
    state (file w') = CLOSED ∧
    trace w' = trace ready_world ++
      (if decide (fd (file ready_world) = -1) then []
       else [SysClose (fd (file ready_world))]) ++
      [UvClose; SysClose (event_fd (file ready_world))] ++
      (if decide (ctx (file ready_world) = 0) then []
       else [SysIoDestroy (ctx (file ready_world))]) ++
      [SysFree; CloseCb 5%nat].
Proof.
  apply (idle_close_completes linux ready_world 5%nat); by vm_compute.
Defined.

(** ** Releasing after a failed uv_poll_start *)

(** The calls of a trace that give something back to the system. *)
Definition released (t : list effect) : list effect :=
  omap (λ e, match e with
             | SysClose _ | SysUnlink _ | SysIoDestroy _ => Some e
             | _ => None
             end) t.

Definition poll_start_fails : list label :=
  [ CallInit true true init_ok;
    CallCreate "open-1" 4096 2 (Some 0%nat) create_ok;
    WorkCreate create_work_ok ].

Definition before_poll_start : world :=
  default (boot blank) (run linux (boot blank) poll_start_fails).

Definition after_poll_start : world :=
  default (boot blank) (step linux before_poll_start (AfterCreate (-22))).

Definition after_second_release : world :=
  default (boot blank)
    (run linux after_poll_start [CallClose (Some 5%nat) 0; PollerClosed 0 0]).

Lemma released_app t1 t2 : released (t1 ++ t2) = released t1 ++ released t2.
Proof. apply omap_app. Qed.

Lemma release_after_create cfg w rp w1 req :
  step cfg w (AfterCreate rp) = Some w1 →
  create_req w = Some req → c_status req = 0 →
  closing (file w) = false → rp ≠ 0 →
  fd (file w1) = fd (file w) ∧ event_fd (file w1) = event_fd (file w) ∧
  ctx (file w1) = ctx (file w) ∧
  ∃ new, trace w1 = trace w ++ new ∧
    released new =
      [ SysIoDestroy (ctx (file w)); SysClose (event_fd (file w));
        SysClose (fd (file w)); SysUnlink (c_path req) ].
Proof.
  intros Hs Hreq H0 Hc Hrp. step_exec Hs. clear Hen. unfold_code.
  mexec; prop_bools. all: simplify_eq/=.
  all: do 3 (split; [done|]).
  all: rewrite <- ?app_assoc; simpl.
  all: eexists; (split; [reflexivity|]); done.
Qed.

Lemma release_on_close cfg w cb rc w1 :
  step cfg w (CallClose cb rc) = Some w1 → fd (file w) ≠ -1 →
  event_fd (file w1) = event_fd (file w) ∧ ctx (file w1) = ctx (file w) ∧
  ∃ new, trace w1 = trace w ++ new ∧
    released new = [SysClose (fd (file w))].
Proof.
  intros Hs Hfd. step_exec Hs. clear Hen. unfold_code.
  mexec; prop_bools; try congruence.
  all: do 2 (split; [done|]).
  all: rewrite <- ?app_assoc; simpl.
  all: eexists; (split; [reflexivity|]); done.
Qed.

Lemma release_on_poller_closed cfg w rc rd w1 :
  step cfg w (PollerClosed rc rd) = Some w1 → ctx (file w) ≠ 0 →
  ∃ new, trace w1 = trace w ++ new ∧
    released new =
      [SysClose (event_fd (file w)); SysIoDestroy (ctx (file w))].
Proof.
  intros Hs Hctx. step_exec Hs. clear Hen. unfold_code.
  mexec; prop_bools; try congruence.
  all: rewrite <- ?app_assoc; simpl.
  all: eexists; (split; [reflexivity|]); done.
Qed.

(** When uv_poll_start fails, [createAfterWorkCb] destroys the AIO
    context, closes the eventfd and the descriptor and unlinks the file,
    but leaves the three fields as they are.  A later [uvFileClose]
    therefore closes the same descriptor again, and the close callback of
    the poller closes the same eventfd and destroys the same context
    again. *)
Theorem failed_poll_start_releases_twice cfg w rp w1 req cb rc rc' rd w2 :
  step cfg w (AfterCreate rp) = Some w1 →
  create_req w = Some req → c_status req = 0 →
  closing (file w) = false → rp ≠ 0 →
  fd (file w) ≠ -1 → ctx (file w) ≠ 0 →
  run cfg w1 [CallClose cb rc; PollerClosed rc' rd] = Some w2 →
  ∃ new, trace w2 = trace w ++ new ∧
    released new =
      [ SysIoDestroy (ctx (file w)); SysClose (event_fd (file w));
        SysClose (fd (file w)); SysUnlink (c_path req);
        SysClose (fd (file w)); SysClose (event_fd (file w));
        SysIoDestroy (ctx (file w)) ].
Proof.
  intros Hs1 Hreq H0 Hc Hrp Hfd Hctx Hrun. simpl in Hrun.
  destruct (step cfg w1 (CallClose cb rc)) as [w1'|] eqn:Hs2; [|done].
  destruct (step cfg w1' (PollerClosed rc' rd)) as [w2'|] eqn:Hs3; [|done].
  injection Hrun as ->.
  destruct (release_after_create _ _ _ _ _ Hs1 Hreq H0 Hc Hrp)
    as (Hfd1 & Hefd1 & Hctx1 & new1 & Ht1 & Hr1).
  destruct (release_on_close _ _ _ _ _ Hs2)
    as (Hefd2 & Hctx2 & new2 & Ht2 & Hr2); [congruence|].
  destruct (release_on_poller_closed _ _ _ _ _ Hs3)
    as (new3 & Ht3 & Hr3); [congruence|].
  exists (new1 ++ new2 ++ new3).
  rewrite Ht3, Ht2, Ht1, <- !app_assoc. split; [done|].
  rewrite !released_app, Hr1, Hr2, Hr3. simpl. congruence.
Qed.

Lemma failed_poll_start_releases_twice_witness :
  ∃ new, trace after_second_release = trace before_poll_start ++ new ∧
    released new =
      [ SysIoDestroy (ctx (file before_poll_start));
        SysClose (event_fd (file before_poll_start));
        SysClose (fd (file before_poll_start));
        SysUnlink (c_path (CreateReq (Some 0%nat) "open-1" 4096 0));
        SysClose (fd (file before_poll_start));
        SysClose (event_fd (file before_poll_start));
        SysIoDestroy (ctx (file before_poll_start)) ].
Proof.
  apply (failed_poll_start_releases_twice linux before_poll_start (-22)
           after_poll_start (CreateReq (Some 0%nat) "open-1" 4096 0)
           (Some 5%nat) 0 0 0 after_second_release); by vm_compute.
Defined.

(** ** Every accepted write is answered at most once *)









Section account.
Context (cfg : build) (w w' : world).
Hypothesis (Hi : inv w) (Hst : stage w ≠ Fresh).









End account.













(** ** The end of the life of a handle *)

(** The calls and the callback that end the life of a handle: uv_close
    on the poller, freeing the events, the close callback. *)
Definition lifecycle (t : list effect) : list effect :=
  omap (λ e, match e with
             | UvClose | SysFree | CloseCb _ => Some e
             | _ => None
             end) t.

Lemma lifecycle_app t1 t2 :
  lifecycle (t1 ++ t2) = lifecycle t1 ++ lifecycle t2.
Proof. apply omap_app. Qed.

(** How far the end of the life has got, by the state of the poller. *)
Definition life (w : world) (t : list effect) : Prop :=
  match event_poller (file w) with
  | HInit | HActive => lifecycle t = []
  | HClosing => lifecycle t = [UvClose]
  | HClosed =>
      state (file w) = CLOSED ∧
      (lifecycle t = [UvClose; SysFree] ∨
       ∃ cb, lifecycle t = [UvClose; SysFree; CloseCb cb])
  end.

(** A handle whose poller is closed and whose state is CLOSED. *)
Definition dead (w : world) : Prop :=
  event_poller (file w) = HClosed ∧ state (file w) = CLOSED.

Definition life_post (w w' : world) : Prop :=
  stage w' ≠ Fresh ∧ ¬ dead w ∧
  ∃ new, trace w' = trace w ++ new ∧
    ∀ pre, life w pre → life w' (pre ++ new).

Ltac life_dead :=
  let Hp := fresh "Hp" in
  let Hs := fresh "Hs" in
  intros [Hp Hs]; simpl in *; rewrite Hp in *; simpl in *;
  repeat match goal with
  | H : true = true → _ |- _ => specialize (H eq_refl)
  end;
  destruct_and?; split_hyps; unfold CREATING, READY, ERRORED, CLOSED in *;
  first [ congruence | lia ].

Ltac life_finish :=
  let pre := fresh "pre" in
  let HL := fresh "HL" in
  intros pre HL; unfold life in *; simpl in *;
  rewrite ?lifecycle_app; simpl;
  repeat match goal with
  | H : event_poller ?f = _ |- _ => rewrite H in *; simpl in *
  end;
  try match goal with
  | |- context [event_poller ?f] =>
      destruct (event_poller f) eqn:?; simpl in *
  | H : context [event_poller ?f] |- _ =>
      destruct (event_poller f) eqn:?; simpl in *
  end;
  repeat match goal with
  | H : true = true → _ |- _ => specialize (H eq_refl)
  end;
  destruct_and?; split_hyps; unfold CREATING, READY, ERRORED, CLOSED in *;
  try congruence; try lia;
  rewrite ?app_nil_r;
  try match goal with
  | H : lifecycle ?p = _ |- _ => rewrite H; simpl
  end;
  try done;
  try (split; [done|]; first [by left | right; by eexists]).

Ltac life_case Hi Hs :=
  step_exec Hs; unfold_code; revert Hi;
  mexec; prop_bools; intros Hi; destruct_inv Hi; chain; use_stage;
  (split; [simpl; congruence|]); (split; [life_dead|]);
  trace_new; life_finish.

Section life.
Context (cfg : build) (w w' : world).
Hypothesis (Hi : inv w) (Hst : stage w ≠ Fresh).

Lemma life_create p sz m cb e :
step cfg w (CallCreate p sz m cb e) = Some w' → life_post w w'.
Proof using Hi Hst. intros Hs. life_case Hi Hs. Qed.

Lemma life_close cb rc :
step cfg w (CallClose cb rc) = Some w' → life_post w w'.
Proof using Hi Hst. intros Hs. life_case Hi Hs. Qed.

Lemma life_work_create e :
step cfg w (WorkCreate e) = Some w' → life_post w w'.
Proof using Hi Hst. intros Hs. life_case Hi Hs. Qed.

Lemma life_after_create rp :
step cfg w (AfterCreate rp) = Some w' → life_post w w'.
Proof using Hi Hst. intros Hs. life_case Hi Hs. Qed.

Lemma life_work_write r e :
step cfg w (WorkWrite r e) = Some w' → life_post w w'.
Proof using Hi Hst. intros Hs. life_case Hi Hs. Qed.

Lemma life_after_write r :
step cfg w (AfterWrite r) = Some w' → life_post w w'.
Proof using Hi Hst. intros Hs. life_case Hi Hs. Qed.

Lemma life_poller_closed rc rd :
step cfg w (PollerClosed rc rd) = Some w' → life_post w w'.
Proof using Hi Hst. intros Hs. life_case Hi Hs. Qed.

Lemma life_write r bufs n off cb e :
step cfg w (CallWrite r bufs n off cb e) = Some w' → life_post w w'.
Proof using Hi Hst. intros Hs. life_case Hi Hs. Qed.

End life.

(** The loop of [writePollCb] ends no life. *)
Lemma lifecycle_events cfg evs qw w b w' :
  writePollCb_events cfg evs qw w = Some (b, w') →
  ∃ new, trace w' = trace w ++ new ∧ lifecycle new = [].
Proof.
  revert w b w'. induction evs as [|ev evs IH]; simpl; intros w b w' Hs.
  - mexec. exists []. by rewrite app_nil_r.
  - apply bind_Some in Hs as (returned & w1 & Hev & Hs).
    assert (H1 : ∃ new, trace w1 = trace w ++ new ∧ lifecycle new = []).
    { unfold writePollCb_event in Hev. clear Hs IH.
      mexec; prop_bools; by trace_new. }
    destruct H1 as (new1 & Ht1 & Hl1). destruct returned.
    + mexec. by exists new1.
    + apply IH in Hs as (new2 & Ht2 & Hl2). exists (new1 ++ new2).
      rewrite Ht2, Ht1, app_assoc, lifecycle_app, Hl1, Hl2. done.
Qed.

Lemma life_poll cfg w w' e :
  inv w → stage w ≠ Fresh → step cfg w (Poll e) = Some w' → life_post w w'.
Proof.
  intros Hi Hst Hs. step_exec Hs. unfold writePollCb in Hs.
  destruct Hen as [Hactive _].
  mexec; prop_bools.
  1: by (split; [done|]; (split; [life_dead|]); trace_new; life_finish).
  all: match goal with
       | H : writePollCb_events _ _ _ _ = Some _ |- _ =>
           pose proof (lifecycle_events _ _ _ _ _ _ H) as (new & Ht & Hl);
           apply writePollCb_events_frame in H
             as ([q Hf] & _ & _ & _ & Hst')
       end.
  all: simpl in *.
  all: (split; [simpl; congruence|]).
  all: (split; [intros [? ?]; congruence|]).
  all: simpl; rewrite ?Hf, Ht, <- ?app_assoc; simpl.
  all: eexists; (split; [reflexivity|]).
  all: intros pre HL; unfold life in *; simpl in *.
  all: rewrite ?Hf; simpl; rewrite Hactive in *.
  all: rewrite !lifecycle_app, ?HL, ?Hl; simpl.
  all: try rewrite lifecycle_app, Hl; done.
Qed.

Lemma life_step cfg w l w' :
  inv w → stage w ≠ Fresh → step cfg w l = Some w' → life_post w w'.
Proof.
  intros Hi Hst Hs. destruct l.
  - step_exec Hs. done.
  - by eapply life_create.
  - by eapply life_write.
  - by eapply life_close.
  - by eapply life_work_create.
  - by eapply life_after_create.
  - by eapply life_work_write.
  - by eapply life_after_write.
  - by eapply life_poll.
  - by eapply life_poller_closed.
Qed.

Lemma life_run cfg ls w w' :
  inv w → stage w ≠ Fresh → run cfg w ls = Some w' →
  inv w' ∧ stage w' ≠ Fresh ∧
  ∃ new, trace w' = trace w ++ new ∧
    ∀ pre, life w pre → life w' (pre ++ new).
Proof.
  revert w. induction ls as [|l ls IH]; simpl; intros w Hi Hst Hr.
  - injection Hr as <-. do 2 (split; [done|]).
    exists []. rewrite app_nil_r. split; [done|].
    intros pre. by rewrite app_nil_r.
  - destruct (step cfg w l) as [w1|] eqn:Hs; [|done].
    destruct (life_step _ _ _ _ Hi Hst Hs) as (Hst1 & _ & new1 & Ht1 & H1).
    destruct (IH w1 (step_inv _ _ _ _ Hi Hs) Hst1 Hr)
      as (Hi' & Hst' & new2 & Ht2 & H2).
    do 2 (split; [done|]).
    exists (new1 ++ new2). rewrite Ht2, Ht1, app_assoc. split; [done|].
    intros pre Hp. rewrite app_assoc. by apply H2, H1.
Qed.

Lemma life_start w :
  uv_is_closing (event_poller (file w)) = false → life w [].
Proof. unfold life. by destruct (event_poller (file w)). Qed.

Definition close_labels : list label :=
  [ CallWrite 1%nat [Buf 4096 512] 1 0 10%nat submit_ok;
    CallClose (Some 5%nat) 0;
    Poll (wake [IoEvent 1%nat 512]);
    PollerClosed 0 0 ].

Definition finished_world : world :=
  default (boot blank) (run linux ready_world close_labels).

Lemma ready_world_reachable : reachable linux ready_world.
Proof. exists blank, (opened false true 2). by vm_compute. Qed.

(** From an initialised handle whose poller is not being closed,
    whatever happens, uv_close is called on the poller at most once,
    the events are freed at most once and only after that, and the
    close callback fires at most once and only after the events were
    freed. *)
Theorem close_happens_once cfg w ls w' :
  reachable cfg w → stage w ≠ Fresh →
  uv_is_closing (event_poller (file w)) = false →
  run cfg w ls = Some w' →
  ∃ new, trace w' = trace w ++ new ∧
    (lifecycle new = [] ∨ lifecycle new = [UvClose] ∨
     lifecycle new = [UvClose; SysFree] ∨
     ∃ cb, lifecycle new = [UvClose; SysFree; CloseCb cb]).
Proof.
  intros Hr Hst Hp Hrun.
  destruct (life_run _ _ _ _ (reachable_inv _ _ Hr) Hst Hrun)
    as (_ & _ & new & Ht & Hl).
  exists new. split; [done|].
  specialize (Hl [] (life_start _ Hp)). simpl in Hl. unfold life in Hl.
  destruct (event_poller (file w')); try tauto.
Qed.

Lemma close_happens_once_witness :
  ∃ new, trace finished_world = trace ready_world ++ new ∧
    (lifecycle new = [] ∨ lifecycle new = [UvClose] ∨
     lifecycle new = [UvClose; SysFree] ∨
     ∃ cb, lifecycle new = [UvClose; SysFree; CloseCb cb]).
Proof.
  apply (close_happens_once linux ready_world close_labels finished_world).
  - exact ready_world_reachable.
  - by vm_compute.
  - by vm_compute.
  - by vm_compute.
Defined.



(** ** The loop of [writePollCb] without would-block results *)

(** The write callbacks of a trace: request and status. *)
Definition write_results (t : list effect) : list (nat * Z) :=
  omap (λ e, match e with WriteCb r _ st => Some (r, st) | _ => None end) t.

Lemma write_results_app t1 t2 :
  write_results (t1 ++ t2) = write_results t1 ++ write_results t2.
Proof. apply omap_app. Qed.

Definition two_in_flight_world : world :=
  default (boot blank)
    (run linux (boot blank)
       (opened false true 2 ++
        [ CallWrite 1%nat [Buf 4096 512] 1 0 10%nat submit_ok;
          CallWrite 2%nat [Buf 8192 512] 1 512 11%nat submit_ok ])).

Definition two_events : list io_event :=
  [ IoEvent 2%nat 512; IoEvent 1%nat (- EIO) ].

Definition drained_world : world :=
  default (boot blank)
    (snd <$> writePollCb_events linux two_events 0 two_in_flight_world).

(** On a handle on which close was not requested, when none of the
    fetched events carries would-block, the loop of [writePollCb] goes
    through all of them: the callbacks fire in the order of the events,
    each with the result of its event, the requests are unlinked, and
    nothing is handed to the thread pool. *)
Theorem writePollCb_events_drained cfg evs qw w b w' :
  writePollCb_events cfg evs qw w = Some (b, w') →
  closing (file w) = false →
  (∀ ev, ev ∈ evs → ev_res ev ≠ - EAGAIN) →
  b = false ∧
  queued w' = queued w ∧
  write_queue (file w')
    = remove_all (map ev_data evs) (write_queue (file w)) ∧
  ∃ new, trace w' = trace w ++ new ∧
    write_results new = map (λ ev, (ev_data ev, ev_res ev)) evs ∧
    length new = length evs.
Proof.
  revert w b w'. induction evs as [|ev evs IH]; simpl;
    intros w b w' Hs Hc Hres.
  - mexec. do 3 (split; [done|]). exists []. by rewrite app_nil_r.
  - apply bind_Some in Hs as (returned & w1 & Hev & Hs).
    assert (Hne : ev_res ev ≠ - EAGAIN) by apply Hres, list_elem_of_here.
    unfold writePollCb_event in Hev. mexec; prop_bools; try congruence.
    rewrite lookup_insert_eq in H0. injection H0 as <-.
    all: match goal with
         | H : writePollCb_events _ _ _ _ = Some _ |- _ =>
             apply IH in H as (-> & Hq & Hf & new & Ht & Hr & Hl);
             [|exact Heqb1|intros; by apply Hres, list_elem_of_further]
         end.
    all: simpl in *.
    all: do 3 (split; [done|]).
    all: eexists (_ :: new); rewrite Ht, <- app_assoc.
    all: (split; [reflexivity|]); simpl; by rewrite Hr, Hl.
Qed.

Lemma writePollCb_events_drained_witness :
  false = false ∧
  queued drained_world = queued two_in_flight_world ∧
  write_queue (file drained_world)
    = remove_all (map ev_data two_events)
        (write_queue (file two_in_flight_world)) ∧
  ∃ new, trace drained_world = trace two_in_flight_world ++ new ∧
    write_results new = map (λ ev, (ev_data ev, ev_res ev)) two_events ∧
    length new = length two_events.
Proof.
  apply (writePollCb_events_drained linux two_events 0
           two_in_flight_world false drained_world).
  - by vm_compute.
  - by vm_compute.
  - intros ev Hev. apply list_elem_of_In in Hev. simpl in Hev.
    destruct Hev as [<-|[<-|[]]]; by vm_compute.
Defined.

(** ** A would-block result that cannot be handed to the thread pool *)




(** ** The assertions of the callbacks *)

(** What the callbacks of the handle rely on when libuv calls them. *)
Record safe (w : world) : Prop := Safe {
  safe_create : JCreate ∈ queued w ∨ JCreate ∈ ran w →
    ∃ req, create_req w = Some req;
  safe_queue : stage w ≠ Fresh → ∀ r, r ∈ write_queue (file w) →
    (∃ q, writes w !! r = Some q) ∧ state (file w) = READY;
  safe_eventfd : stage w ≠ Fresh → 0 ≤ event_fd (file w);
  safe_active : stage w ≠ Fresh → event_poller (file w) = HActive →
    state (file w) = READY;
  safe_closing : stage w ≠ Fresh → event_poller (file w) = HClosing →
    state (file w) ≠ CLOSED ∧ write_queue (file w) = [];
  safe_inited : event_poller (file w) = HActive → stage w ≠ Inited;
  safe_prompt : stage w ≠ Fresh → closing (file w) = true →
    write_queue (file w) = [] → state (file w) ≠ CREATING →
    uv_is_closing (event_poller (file w)) = true
}.

Lemma insert_keeps_some (m : gmap nat struct_uvFileWrite) k v r :
  (∃ q, m !! r = Some q) → ∃ q, <[k:=v]> m !! r = Some q.
Proof.
  intros [q Hq]. destruct (decide (r = k)) as [->|Hne].
  - rewrite lookup_insert_eq. by eexists.
  - rewrite lookup_insert_ne by done. by eexists.
Qed.

Lemma insert_is_some (m : gmap nat struct_uvFileWrite) k v :
  ∃ q, <[k:=v]> m !! k = Some q.
Proof. rewrite lookup_insert_eq. by eexists. Qed.

Ltac some_write :=
  repeat first
    [ apply insert_is_some
    | apply insert_keeps_some
    | assumption
    | by eexists ].

Ltac safe_use :=
  try match goal with
  | Hp : event_poller ?f = _,
    Hc : uv_is_closing (event_poller ?f) = true → _ |- _ =>
      rewrite Hp in Hc; simpl in Hc
  end;
  repeat match goal with
  | H : true = true → _ |- _ => specialize (H eq_refl)
  | Hst : stage ?w ≠ Fresh, H : stage ?w ≠ Fresh → _ |- _ =>
      specialize (H Hst)
  | Hst : stage ?w = Inited, H : stage ?w = Inited → _ |- _ =>
      specialize (H Hst)
  | Hp : event_poller ?f = ?p, H : event_poller ?f = ?p → _ |- _ =>
      specialize (H Hp)
  | Hin : ?r ∈ write_queue ?f,
    H : ∀ r, r ∈ write_queue ?f → _ |- _ =>
      let H' := fresh in
      pose proof (H r Hin) as H'; revert Hin
  end; intros.

Ltac safe_finish :=
  intros; simpl in *; destruct_and?; split_hyps; safe_use;
  destruct_and?; destruct_or?; split_hyps; light_eq; split_hyps;
  unfold CREATING, READY, ERRORED, CLOSED in *;
  repeat match goal with
  | H1 : ?a = Some ?x, H2 : ?a = Some ?y |- _ =>
      assert (y = x) by congruence; subst y; clear H2
  end;
  repeat match goal with
  | H : ?x = 0 |- context [?x =? 0] => rewrite H; simpl
  | H : ?x ≠ 0 |- context [?x =? 0] =>
      rewrite (proj2 (Z.eqb_neq x 0) H); simpl
  end;
  first
    [ done
    | congruence
    | lia
    | by eexists
    | exfalso; congruence
    | split; [by some_write|first [done | congruence]]
    | match goal with
      | S : _ → _ → _ → uv_is_closing _ = true |- uv_is_closing _ = true =>
          apply S; first [ done | congruence ]
      end
    | match goal with
      | S : _ ∨ _ → ∃ req, create_req _ = Some req |- ∃ req, _ =>
          apply S; first [left; assumption | right; assumption]
      end
    | idtac ].

Ltac safe_case Hi Hsf Hs :=
  let S1 := fresh "S1" in
  let S2 := fresh "S2" in
  let S3 := fresh "S3" in
  let S4 := fresh "S4" in
  let S5 := fresh "S5" in
  let S6 := fresh "S6" in
  let S7 := fresh "S7" in
  destruct Hsf as [S1 S2 S3 S4 S5 S6 S7]; step_exec Hs; unfold_code;
  revert Hi S1 S2 S3 S4 S5 S6 S7;
  mexec; prop_bools; ltb_props; intros Hi S1 S2 S3 S4 S5 S6 S7;
  destruct_inv Hi; chain; use_stage;
  (split; simpl); safe_finish.

Section safe.
Context (cfg : build) (w w' : world).
Hypothesis (Hi : inv w) (Hsf : safe w).

Lemma safe_init d a e :
step cfg w (CallInit d a e) = Some w' → safe w'.
Proof using Hi Hsf. intros Hs. safe_case Hi Hsf Hs. Qed.

Lemma safe_create_step p sz m cb e :
step cfg w (CallCreate p sz m cb e) = Some w' → safe w'.
Proof using Hi Hsf. intros Hs. safe_case Hi Hsf Hs. Qed.

Lemma safe_close cb rc :
step cfg w (CallClose cb rc) = Some w' → safe w'.
Proof using Hi Hsf. intros Hs. safe_case Hi Hsf Hs. Qed.

Lemma safe_work_create e :
step cfg w (WorkCreate e) = Some w' → safe w'.
Proof using Hi Hsf. intros Hs. safe_case Hi Hsf Hs. Qed.

Lemma safe_after_create rp :
step cfg w (AfterCreate rp) = Some w' → safe w'.
Proof using Hi Hsf. intros Hs. safe_case Hi Hsf Hs. Qed.

Lemma safe_work_write r e :
step cfg w (WorkWrite r e) = Some w' → safe w'.
Proof using Hi Hsf. intros Hs. safe_case Hi Hsf Hs. Qed.

Lemma safe_after_write r :
step cfg w (AfterWrite r) = Some w' → safe w'.
Proof using Hi Hsf. intros Hs. safe_case Hi Hsf Hs. Qed.

Lemma safe_poller_closed rc rd :
step cfg w (PollerClosed rc rd) = Some w' → safe w'.
Proof using Hi Hsf. intros Hs. safe_case Hi Hsf Hs. Qed.

Lemma safe_write r bufs n off cb e :
step cfg w (CallWrite r bufs n off cb e) = Some w' → safe w'.
Proof using Hi Hsf. intros Hs. safe_case Hi Hsf Hs. Qed.

End safe.

(** The part of [safe] that holds inside the loop of [writePollCb]. *)
Record safe_core (w : world) : Prop := SafeCore {
  core_create : JCreate ∈ queued w ∨ JCreate ∈ ran w →
    ∃ req, create_req w = Some req;
  core_queue : stage w ≠ Fresh → ∀ r, r ∈ write_queue (file w) →
    (∃ q, writes w !! r = Some q) ∧ state (file w) = READY;
  core_eventfd : stage w ≠ Fresh → 0 ≤ event_fd (file w);
  core_active : stage w ≠ Fresh → event_poller (file w) = HActive →
    state (file w) = READY;
  core_closing : stage w ≠ Fresh → event_poller (file w) = HClosing →
    state (file w) ≠ CLOSED ∧ write_queue (file w) = [];
  core_inited : event_poller (file w) = HActive → stage w ≠ Inited
}.

Lemma safe_core_of w : safe w → safe_core w.
Proof. by intros []. Qed.

Ltac core_split Hc :=
  let S1 := fresh "S1" in
  let S2 := fresh "S2" in
  let S3 := fresh "S3" in
  let S4 := fresh "S4" in
  let S5 := fresh "S5" in
  let S6 := fresh "S6" in
  destruct Hc as [S1 S2 S3 S4 S5 S6]; (split; simpl); safe_finish.

Lemma event_core cfg ev qw w b w' :
  safe_core w → writePollCb_event cfg ev qw w = Some (b, w') →
  safe_core w'.
Proof.
  intros Hc Hs. unfold writePollCb_event in Hs. revert Hc.
  mexec; prop_bools; intros Hc; core_split Hc.
Qed.

Lemma events_core cfg evs qw w b w' :
  safe_core w → writePollCb_events cfg evs qw w = Some (b, w') →
  safe_core w'.
Proof.
  revert w b w'. induction evs as [|ev evs IH]; simpl; intros w b w' Hc Hs.
  - by mexec.
  - apply bind_Some in Hs as (returned & w1 & Hev & Hs).
    apply event_core in Hev; [|done]. destruct returned.
    + by mexec.
    + by eapply IH.
Qed.

(** The loop returns early only on a handle that is not closing. *)
Lemma events_returned cfg evs qw w w' :
  writePollCb_events cfg evs qw w = Some (true, w') →
  closing (file w') = false.
Proof.
  intros Hs. destruct (closing (file w)) eqn:Hc.
  - by apply closing_events in Hs as (? & _).
  - apply writePollCb_events_frame in Hs as ([q ->] & _). by simpl.
Qed.

Lemma safe_poll cfg w w' e :
  inv w → safe w → step cfg w (Poll e) = Some w' → safe w'.
Proof.
  intros Hi Hsf Hs. step_exec Hs. unfold writePollCb in Hs. clear Hen Hi.
  revert Hsf.
  mexec; prop_bools; intros Hsf.
  1: by (destruct Hsf as [S1 S2 S3 S4 S5 S6 S7]; (split; simpl);
         safe_finish).
  all: apply safe_core_of in Hsf.
  all: match goal with
       | H : writePollCb_events _ _ _ _ = Some _ |- _ =>
           pose proof H as Hev;
           apply events_core in H;
             [clear Hsf; rename H into Hsf|core_split Hsf]
       end.
  all: try assumption.
  all: subst; try apply events_returned in Hev.
  all: destruct Hsf as [S1 S2 S3 S4 S5 S6]; (split; simpl); safe_finish.
Qed.

Lemma step_safe cfg w l w' :
  inv w → safe w → step cfg w l = Some w' → safe w'.
Proof.
  intros Hi Hsf. destruct l.
  - by apply safe_init.
  - by apply safe_create_step.
  - by apply safe_write.
  - by apply safe_close.
  - by apply safe_work_create.
  - by apply safe_after_create.
  - by apply safe_work_write.
  - by apply safe_after_write.
  - by apply safe_poll.
  - by apply safe_poller_closed.
Qed.

Lemma run_safe cfg ls w w' :
  inv w → safe w → run cfg w ls = Some w' → safe w'.
Proof.
  revert w. induction ls as [|l ls IH]; simpl; intros w Hi Hsf Hr.
  - by injection Hr as <-.
  - destruct (step cfg w l) as [w1|] eqn:Hs; [|done].
    eapply IH; [by eapply step_inv|by eapply step_safe|done].
Qed.

Lemma reachable_safe cfg w : reachable cfg w → safe w.
Proof.
  intros (f0 & ls & Hr). eapply run_safe; [apply boot_inv| |done].
  split; simpl; try done.
  - by intros [?%elem_of_nil|?%elem_of_nil].
Qed.

(** *** How a computation can stop at an assertion *)



















Definition close_requested_world : world :=
  default (boot blank)
    (run linux (boot blank)
       (opened false true 2 ++
        [ CallWrite 1%nat [Buf 4096 512] 1 0 10%nat submit_ok;
          CallClose (Some 5%nat) 0;
          Poll (wake [IoEvent 1%nat 512]) ])).

(** In every run of an initialised handle, close does not wait longer
    than it has to: when close was requested, no request is linked in
    the queue and no create is under way, uv_close has been called on
    the poller. *)
Theorem close_is_prompt cfg w :
  reachable cfg w → stage w ≠ Fresh →
  closing (file w) = true → write_queue (file w) = [] →
  state (file w) ≠ CREATING →
  uv_is_closing (event_poller (file w)) = true.
Proof.
  intros Hr Hst Hc Hq Hs.
  destruct (reachable_safe _ _ Hr) as [_ _ _ _ _ _ S7]. by apply S7.
Qed.

Lemma close_is_prompt_witness :
  uv_is_closing (event_poller (file close_requested_world)) = true.
Proof.
  apply (close_is_prompt linux close_requested_world).
  - exists blank,
      (opened false true 2 ++
       [ CallWrite 1%nat [Buf 4096 512] 1 0 10%nat submit_ok;
         CallClose (Some 5%nat) 0;
         Poll (wake [IoEvent 1%nat 512]) ]).
    by vm_compute.
  - by vm_compute.
  - by vm_compute.
  - by vm_compute.
  - by vm_compute.
Defined.

(** ** [uvFileClose] while writes are pending *)

Definition close_pending_world : world :=
  default (boot blank)
    (snd <$> uvFileClose (Some 5%nat) 0 two_in_flight_world).

(** [uvFileClose] closes the descriptor of the file at once, also while
    write requests are linked in the queue: nothing else is released,
    uv_close is not called, and the requests stay where they are, in
    the queue, with the kernel and in the thread pool. *)
Theorem uvFileClose_with_writes_pending cb rc w w' :
  uvFileClose cb rc w = Some (tt, w') →
  write_queue (file w) ≠ [] → fd (file w) ≠ -1 →
  trace w' = trace w ++ [SysClose (fd (file w))] ∧
  file w' = set_close_cb cb (set_closing true (file w)) ∧
  writes w' = writes w ∧ kaio w' = kaio w ∧
  queued w' = queued w ∧ ran w' = ran w.
Proof.
  intros Hs Hq Hfd. unfold uvFileClose in Hs.
  mexec; prop_bools; try congruence; try done.
  all: match goal with
       | H : QUEUE_IS_EMPTY _ = true |- _ =>
           apply QUEUE_IS_EMPTY_true in H; simpl in H; congruence
       end.
Qed.

Lemma uvFileClose_with_writes_pending_witness :
  trace close_pending_world
    = trace two_in_flight_world ++
      [SysClose (fd (file two_in_flight_world))] ∧
  file close_pending_world
    = set_close_cb (Some 5%nat)
        (set_closing true (file two_in_flight_world)) ∧
  writes close_pending_world = writes two_in_flight_world ∧
  kaio close_pending_world = kaio two_in_flight_world ∧
  queued close_pending_world = queued two_in_flight_world ∧
  ran close_pending_world = ran two_in_flight_world.
Proof.
  apply (uvFileClose_with_writes_pending (Some 5%nat) 0
           two_in_flight_world close_pending_world).
  - by vm_compute.
  - by vm_compute.
  - by vm_compute.
Defined.

(** ** [uvFileClose] right after [uvFileInit] *)

(** Memory that happens to hold CREATING where the state of the handle
    will be. *)
Definition stale : uvFile :=
  File CREATING 0 false false 0 HInit 0 0 [] false None.

Definition stale_inited : world :=
  default (boot stale) (step linux (boot stale) (CallInit false true init_ok)).

(** What a successful [uvFileInit] leaves, whatever the memory held. *)
Lemma init_leaves cfg f0 d a e w1 :
  step cfg (boot f0) (CallInit d a e) = Some w1 → stage w1 = Inited →
  state (file w1) = state f0 ∧ closing (file w1) = false ∧
  write_queue (file w1) = [] ∧ event_poller (file w1) = HInit ∧
  fd (file w1) = -1 ∧ queued w1 = [] ∧ ran w1 = [] ∧
  trace w1 = [SysEventfd; UvPollInit; ReturnInit 0].
Proof.
  intros Hs1 Hst.
  step_exec Hs1. clear Hen. unfold_code. unfold boot in *.
  mexec; prop_bools; try discriminate Hst; try congruence.
  done.
Qed.

(** A handle that is closing, initialised but not created, with an idle
    poller and nothing in the thread pool, takes no step. *)
Lemma closing_before_create_stuck cfg w l :
  inv w → stage w = Inited → closing (file w) = true →
  event_poller (file w) = HInit → queued w = [] → ran w = [] →
  step cfg w l = None.
Proof.
  intros Hi Hst Hc Hp Hq Hr.
  assert (Hnf : stage w ≠ Fresh) by (rewrite Hst; discriminate).
  pose proof (closing_step_calls cfg w Hi Hnf Hc l) as Hcalls.
  destruct l; try exact Hcalls.
  all: destruct (step cfg w _) as [w3|] eqn:Hs3; [exfalso|done].
  all: apply step_Some in Hs3 as [Hen _]; unfold enabled in Hen;
       apply bool_decide_eq_true in Hen; rewrite ?Hq, ?Hr, ?Hp in Hen.
  all: match type of Hen with
       | _ ∈ [] => by apply elem_of_nil in Hen
       | _ ∈ [] ∧ _ => destruct Hen as [Hen _]; by apply elem_of_nil in Hen
       | _ = _ => discriminate Hen
       | _ = _ ∧ _ => destruct Hen as [Hen _]; discriminate Hen
       end.
Qed.

Lemma close_before_create cfg w cb rc w2 :
  stage w = Inited → closing (file w) = false →
  write_queue (file w) = [] → event_poller (file w) = HInit →
  fd (file w) = -1 →
  step cfg w (CallClose cb rc) = Some w2 →
  state (file w) ≠ CLOSED ∧
  stage w2 = Inited ∧ closing (file w2) = true ∧
  queued w2 = queued w ∧ ran w2 = ran w ∧
  (state (file w) = CREATING →
     trace w2 = trace w ∧ event_poller (file w2) = HInit) ∧
  (state (file w) ≠ CREATING → trace w2 = trace w ++ [UvClose]).
Proof.
  intros Hst Hc Hq Hp Hfd Hs2. step_exec Hs2. clear Hen. unfold_code.
  mexec; prop_bools; try congruence.
  all: try match goal with
       | H : QUEUE_IS_EMPTY _ = false |- _ =>
           rewrite Hq in H; discriminate H
       | H : uv_is_closing _ = true |- _ =>
           rewrite Hp in H; discriminate H
       end.
  all: repeat split; try done; try congruence.
Qed.

(** [uvFileInit] does not write the state field, and [uvFileClose] on a
    handle that was initialised but not created acts on what the field
    holds: with CLOSED it stops at the assertion of [maybeClosed]; with
    CREATING it takes a create to be under way, does not call uv_close,
    and no step of the handle is possible afterwards, so the close
    callback never fires; with any other value it calls uv_close. *)
Theorem close_after_init_reads_state cfg f0 d a e w1 cb rc :
  step cfg (boot f0) (CallInit d a e) = Some w1 → stage w1 = Inited →
  (state f0 = CLOSED → step cfg w1 (CallClose cb rc) = None) ∧
  (state f0 = CREATING →
     ∀ w2, step cfg w1 (CallClose cb rc) = Some w2 →
       (UvClose ∉ trace w2) ∧ ∀ l, step cfg w2 l = None) ∧
  (state f0 ≠ CLOSED → state f0 ≠ CREATING →
     ∀ w2, step cfg w1 (CallClose cb rc) = Some w2 → UvClose ∈ trace w2).
Proof.
  intros Hs1 Hst.
  pose proof (step_inv _ _ _ _ (boot_inv f0) Hs1) as Hi1.
  destruct (init_leaves _ _ _ _ _ _ Hs1 Hst)
    as (Hstate & Hc & Hq & Hp & Hfd & Hqd & Hrn & Ht).
  split; [|split].
  - intros Hcl. destruct (step _ _ (CallClose cb rc)) as [w2|] eqn:Hs2; [|done].
    destruct (close_before_create _ _ _ _ _ Hst Hc Hq Hp Hfd Hs2) as [Hn _].
    congruence.
  - intros Hcr w2 Hs2.
    pose proof (step_inv _ _ _ _ Hi1 Hs2) as Hi2.
    destruct (close_before_create _ _ _ _ _ Hst Hc Hq Hp Hfd Hs2)
      as (_ & Hst2 & Hc2 & Hqd2 & Hrn2 & Hcreating & _).
    destruct Hcreating as [Ht2 Hp2]; [congruence|].
    split.
    + rewrite Ht2, Ht. intros Hin. apply list_elem_of_In in Hin.
      simpl in Hin. intuition discriminate.
    + intros l. apply closing_before_create_stuck; try done; congruence.
  - intros Hn1 Hn2 w2 Hs2.
    destruct (close_before_create _ _ _ _ _ Hst Hc Hq Hp Hfd Hs2)
      as (_ & _ & _ & _ & _ & _ & Hother).
    rewrite Hother by congruence.
    apply elem_of_app. right. apply list_elem_of_here.
Qed.

Definition stale_closed : world :=
  default (boot stale)
    (step linux stale_inited (CallClose (Some 5%nat) 0)).

Lemma close_after_init_reads_state_witness :
  (UvClose ∉ trace stale_closed) ∧ ∀ l, step linux stale_closed l = None.
Proof.
  apply (close_after_init_reads_state linux stale false true init_ok
           stale_inited (Some 5%nat) 0); by vm_compute.
Defined.
